(** * AI Voice Studio: credential rotation, batch orchestration and request
    building, verified over a shallow embedding of the TypeScript sources

    Sources embedded here:
    - [src/types.ts]                  the credential record;
    - [src/services/geminiService.ts] the credential store and [generateSpeech];
    - [src/unnamed/part_000]          the React component [App]: key management,
      [attemptGenerate], the single and batch handlers, CSV ingestion.

    Modelling conventions.
    - A JavaScript string is a [string]: a sequence of code units, restricted
      to the code units below 256.  The primitives used by the sources
      ([trim], [toLowerCase], [includes], [replace], [split], the regular
      expression of the CSV reader) are written out for that range.
    - A React state variable is a field of the application state; a functional
      updater [setX(prev => f prev)] is applied to that field.  The values a
      handler closes over are those of the render it was created in: a
      handler takes the state of that render as its argument [r], reads its
      closure from [r] and writes to the current state [st]; [r] does not
      move while the handler runs.
    - [useRef] cells are plain fields of the state.
    - The network, [URL.createObjectURL] and [Math.random] are collaborators:
      functions over an abstract [World].
    - An [async] function is run to completion; no other handler interleaves. *)

From Stdlib Require Import String Ascii List Bool Arith NArith ZArith Lia.
From Stdlib Require Import DecimalString.
From Equations Require Import Equations.
Import ListNotations.

Local Open Scope string_scope.
Local Open Scope list_scope.
Local Open Scope nat_scope.

(** String concatenation, the [+] of JavaScript on strings. *)
Infix "+++" := String.append (at level 60, right associativity).

Set Implicit Arguments.

(** ** JavaScript string primitives *)

Module Js.

(** The double quote character, code unit 34. *)
Definition dquote : ascii := ascii_of_nat 34.
Definition CR : ascii := ascii_of_nat 13.
Definition LF : ascii := ascii_of_nat 10.

(** [WhiteSpace] and [LineTerminator] of ECMAScript below 256: TAB, LF, VT,
    FF, CR, SP and NBSP.  These are what [String.prototype.trim] strips. *)
Definition isWhiteSpace (c : ascii) : bool :=
  let n := nat_of_ascii c in
  ((9 <=? n) && (n <=? 13)) || (n =? 32) || (n =? 160).

(** [LineTerminator] below 256: what [.] of a regular expression refuses. *)
Definition isLineTerminator (c : ascii) : bool :=
  let n := nat_of_ascii c in (n =? 10) || (n =? 13).

Definition isEmpty (s : string) : bool :=
  match s with EmptyString => true | String _ _ => false end.

(** Truthiness of a string: every string but the empty one. *)
Definition truthy (s : string) : bool := negb (isEmpty s).

Fixpoint trimStart (s : string) : string :=
  match s with
  | EmptyString => EmptyString
  | String c s' => if isWhiteSpace c then trimStart s' else s
  end.

Fixpoint trimEnd (s : string) : string :=
  match s with
  | EmptyString => EmptyString
  | String c s' =>
      let t := trimEnd s' in
      if isWhiteSpace c && isEmpty t then EmptyString else String c t
  end.

Definition trim (s : string) : string := trimEnd (trimStart s).

(** [s.toLowerCase()] on code units below 256: A-Z and the Latin-1 capitals. *)
Definition lowerChar (c : ascii) : ascii :=
  let n := nat_of_ascii c in
  if ((65 <=? n) && (n <=? 90))
     || ((192 <=? n) && (n <=? 214))
     || ((216 <=? n) && (n <=? 222))
  then ascii_of_nat (n + 32) else c.

Fixpoint toLowerCase (s : string) : string :=
  match s with
  | EmptyString => EmptyString
  | String c s' => String (lowerChar c) (toLowerCase s')
  end.

(** [s.includes(sub)] *)
Fixpoint includes (sub s : string) : bool :=
  prefix sub s ||
  match s with
  | EmptyString => false
  | String _ s' => includes sub s'
  end.

Definition startsWith (c : ascii) (s : string) : bool :=
  match s with
  | EmptyString => false
  | String d _ => Ascii.eqb d c
  end.

Fixpoint endsWith (c : ascii) (s : string) : bool :=
  match s with
  | EmptyString => false
  | String d EmptyString => Ascii.eqb d c
  | String _ s' => endsWith c s'
  end.

Fixpoint dropLast (s : string) : string :=
  match s with
  | EmptyString => EmptyString
  | String _ EmptyString => EmptyString
  | String c s' => String c (dropLast s')
  end.

(** [s.slice(1, -1)] *)
Definition slice_1_m1 (s : string) : string :=
  match s with
  | EmptyString => EmptyString
  | String _ s' => dropLast s'
  end.

(** [s.replace(/c/g, by)] for a one-character pattern. *)
Fixpoint replaceChar (c : ascii) (by_ : string) (s : string) : string :=
  match s with
  | EmptyString => EmptyString
  | String d s' =>
      if Ascii.eqb d c then by_ +++ replaceChar c by_ s'
      else String d (replaceChar c by_ s')
  end.

(** [s.replace(/QQ/g, Q)] where Q is the double quote: matches are found
    left to right and do not overlap. *)
Fixpoint unescapeQuotes (s : string) : string :=
  match s with
  | EmptyString => EmptyString
  | String c s' =>
      match s' with
      | String d s'' =>
          if Ascii.eqb c dquote && Ascii.eqb d dquote
          then String dquote (unescapeQuotes s'')
          else String c (unescapeQuotes s')
      | EmptyString => String c EmptyString
      end
  end.

(** [xs.join(sep)] *)
Fixpoint join (sep : string) (xs : list string) : string :=
  match xs with
  | [] => EmptyString
  | [x] => x
  | x :: rest => x +++ sep +++ join sep rest
  end.

(** [content.split(/\r?\n/)]: the text is cut at every LF; a CR standing
    right before the LF belongs to the separator. *)
Fixpoint splitLines (s : string) : list string :=
  match s with
  | EmptyString => [EmptyString]
  | String c s' =>
      if Ascii.eqb c LF then EmptyString :: splitLines s'
      else
        match s' with
        | String d s'' =>
            if Ascii.eqb c CR && Ascii.eqb d LF
            then EmptyString :: splitLines s''
            else match splitLines s' with
                 | [] => [String c EmptyString]
                 | l :: ls => String c l :: ls
                 end
        | EmptyString => [String c EmptyString]
        end
  end.

Fixpoint noLineTerminator (s : string) : bool :=
  match s with
  | EmptyString => true
  | String c s' => negb (isLineTerminator c) && noLineTerminator s'
  end.

(** The text before the first comma and the text after it. *)
Fixpoint cutAtComma (s : string) : option (string * string) :=
  match s with
  | EmptyString => None
  | String c s' =>
      if Ascii.eqb c ","%char then Some (EmptyString, s')
      else match cutAtComma s' with
           | Some (a, b) => Some (String c a, b)
           | None => None
           end
  end.

(** The regular expression of the CSV reader, applied by [line.match]: from
    the start of the line one or more characters other than a comma (group
    1), a comma, then any characters but line terminators up to the end of
    the line (group 2).  Group 1 cannot reach across a comma, so the cut is
    at the first comma. *)
Definition matchRow (line : string) : option (string * string) :=
  match cutAtComma line with
  | Some (a, b) =>
      if truthy a && noLineTerminator b then Some (a, b) else None
  | None => None
  end.

(** Decimal numerals. *)
Definition showN (n : N) : string := NilZero.string_of_uint (N.to_uint n).

End Js.

(** ** Data model ([src/types.ts]) *)

Inductive ApiKeyStatus : Type := active | quota_exceeded | error.

Record ApiKeyData : Type := {
  key : string;
  status : ApiKeyStatus;
  errorMessage : option string;
  usageCount : N;
  addedAt : N
}.

Definition isActive (k : ApiKeyData) : bool :=
  match status k with active => true | _ => false end.

(** ** Thrown values and results of [async] calls *)

(** What a [catch] clause reads off the value it caught: [e.toString()] and
    [e.message], the empty string standing for a missing or empty message. *)
Record JsError : Type := {
  message : string;
  toString : string
}.

(** [new Error(m)] *)
Definition newError (m : string) : JsError :=
  {| message := m;
     toString := if Js.isEmpty m then "Error" else "Error: " +++ m |}.

(** [a || b] on strings *)
Definition orElse (a b : string) : string := if Js.truthy a then a else b.

Inductive Promise (A : Type) : Type :=
| Resolved (a : A)
| Rejected (e : JsError).
Arguments Resolved {A} a.
Arguments Rejected {A} e.

(** ** Requests ([src/services/geminiService.ts]) *)

(** The speed slider moves in steps of 0.01 and the pitch slider in steps of
    0.1; both values reach the code through [parseFloat].  A speed is kept as
    its number of hundredths and a pitch as its number of tenths, so that
    [toFixed(2)] and the conversion of a number to a string are exact. *)
Definition Hundredths : Type := N.
Definition Tenths : Type := Z.

(** [speed.toFixed(2)] *)
Definition toFixed2 (speed : Hundredths) : string :=
  Js.showN (speed / 100) +++ "." +++
  Js.showN ((speed / 10) mod 10) +++ Js.showN (speed mod 10).

(** The text a template literal gives for [pitch]. *)
Definition showTenths (pitch : Tenths) : string :=
  let a := Z.to_N (Z.abs pitch) in
  (if (pitch <? 0)%Z then "-" else EmptyString) +++
  Js.showN (a / 10) +++
  (if (a mod 10 =? 0)%N then EmptyString else "." +++ Js.showN (a mod 10)).

Module Params.
Record t : Type := {
  text : string;
  voiceId : string;
  speed : Hundredths;
  pitch : Tenths;
  isSSML : bool
}.
End Params.

Definition quote : string := String Js.dquote EmptyString.

(** The three chained [replace] calls of [generateSpeech]. *)
Definition sanitize (text : string) : string :=
  Js.replaceChar ">" "&gt;"
    (Js.replaceChar "<" "&lt;" (Js.replaceChar "&" "&amp;" text)).

(** [promptText] of [generateSpeech] *)
Definition promptText (p : Params.t) : string :=
  if negb (Params.isSSML p) then
    let sanitizedText := sanitize (Params.text p) in
    "<speak><prosody rate=" +++ quote +++ toFixed2 (Params.speed p) +++ quote
      +++ " pitch=" +++ quote +++ showTenths (Params.pitch p) +++ "st" +++ quote
      +++ ">" +++ sanitizedText +++ "</prosody></speak>"
  else Params.text p.

(** The [catch] clause of [generateSpeech]: the error is classified by
    markers in its text and thrown again. *)
Definition rethrow (e : JsError) : JsError :=
  let errString := toString e in
  if Js.includes "429" errString || Js.includes "Quota" errString then
    newError "QUOTA_EXCEEDED"
  else if Js.includes "403" errString || Js.includes "API key" errString then
    newError "INVALID_KEY"
  else newError (orElse (message e) "Unknown error during generation").

(** What [ai.models.generateContent] does: it answers, with or without the
    audio data the code looks for, or it throws. *)
Inductive RemoteOutcome : Type :=
| Responded (data : option string)
| Threw (e : JsError).

(** One call of [ai.models.generateContent], as seen on the wire. *)
Record NetRequest : Type := {
  req_apiKey : string;
  req_text : string;
  req_voiceName : string
}.

(** A credential as [handleAddKey] and [migrateOldKey] create it. *)
Definition freshKey (k : string) (now : N) : ApiKeyData :=
  {| key := k; status := active; errorMessage := None;
     usageCount := 0; addedAt := now |}.

(** ** The credential store ([src/services/geminiService.ts]) *)

Module Store.

(** [localStorage]: a map from keys to strings. *)
Definition Storage : Type := string -> option string.

Definition getItem (ls : Storage) (k : string) : option string := ls k.

Definition setItem (k v : string) (ls : Storage) : Storage :=
  fun k' => if (k' =? k)%string then Some v else ls k'.

Definition removeItem (k : string) (ls : Storage) : Storage :=
  fun k' => if (k' =? k)%string then None else ls k'.

Definition LOCAL_STORAGE_KEY : string := "gemini_api_keys_v2".
Definition OLD_STORAGE_KEY : string := "gemini_api_key".

Section Json.

(** [JSON.parse] returns a value of any shape, or throws a [SyntaxError]
    ([None] here).  [getStoredApiKeys] declares what it returns an
    [ApiKeyData[]] and does not look at it, so the two cases are kept
    apart: the value is an array of credential objects, or it is something
    else ([null], a number, a string, an object, an array of other things).
    [Other] is the type of those other values. *)
Variable Other : Type.

Inductive Parsed : Type :=
| Credentials (keys : list ApiKeyData)
| NotCredentials (value : Other).

Variable JSON_parse : string -> option Parsed.

(** [JSON.stringify], which the store applies to lists of credentials. *)
Variable JSON_stringify : list ApiKeyData -> string.

(** [migrateOldKey]; [now] is the value of [Date.now()]. *)
Definition migrateOldKey (now : N) (ls : Storage)
  : list ApiKeyData * Storage :=
  match getItem ls OLD_STORAGE_KEY with
  | Some oldKey =>
      if Js.truthy oldKey then
        let newEntry := freshKey oldKey now in
        ([newEntry],
         setItem LOCAL_STORAGE_KEY (JSON_stringify [newEntry])
           (removeItem OLD_STORAGE_KEY ls))
      else ([], ls)
  | None => ([], ls)
  end.

(** [getStoredApiKeys]: what [JSON.parse] gives is returned as it is. *)
Definition getStoredApiKeys (now : N) (ls : Storage) : Parsed * Storage :=
  match getItem ls LOCAL_STORAGE_KEY with
  | Some stored =>
      if Js.truthy stored then
        match JSON_parse stored with
        | Some value => (value, ls)
        | None => (Credentials [], ls)
        end
      else
        let (keys, ls') := migrateOldKey now ls in (Credentials keys, ls')
  | None =>
      let (keys, ls') := migrateOldKey now ls in (Credentials keys, ls')
  end.

Definition saveStoredApiKeys (keys : list ApiKeyData) (ls : Storage)
  : Storage :=
  setItem LOCAL_STORAGE_KEY (JSON_stringify keys) ls.

End Json.

Arguments Credentials {Other} keys.
Arguments NotCredentials {Other} value.

End Store.

(** ** Batch items and application state ([src/unnamed/part_000]) *)

Record Voice : Type := {
  voice_id : string;
  apiId : string;
  voice_name : string;
  description : string
}.

Module Item.
Inductive Status : Type := idle | loading | success | error.

Record t : Type := {
  id : string;
  stt : string;
  text : string;
  status : Status;
  audioUrl : option string;
  errorMsg : option string;
  usedKey : option string
}.
End Item.

(** A [Set<string>]: its elements in insertion order. *)
Module StrSet.
Definition t : Type := list string.
Definition has (s : t) (x : string) : bool := existsb (String.eqb x) s.
Definition add (x : string) (s : t) : t := if has s x then s else s ++ [x].
Definition size (s : t) : nat := length s.
End StrSet.

Section Studio.

Set Default Proof Using "Type".

(** The collaborators.  [World] is everything outside the page: the remote
    service, the browser's table of object URLs, the random generator. *)
Variable World : Type.
Variable Blob : Type.

(** [ai.models.generateContent] for an API key, a prompt and a voice name. *)
Variable generateContent :
  World -> string -> string -> string -> RemoteOutcome * World.

(** [createWavBlob] of [utils/audioUtils], which is not among the sources:
    it yields a blob or throws. *)
Variable createWavBlob : string -> JsError + Blob.

(** [URL.createObjectURL] *)
Variable createObjectURL : World -> Blob -> string * World.

(** [Math.random().toString(36).substring(7)] *)
Variable randomId : World -> string * World.

(** [BANNED_WORDS] of [constants], which is not among the sources. *)
Variable BANNED_WORDS : list string.

(** Keeps a proof from resting on a collaborator its statement does not
    mention. *)
Ltac tidy :=
  try clear BANNED_WORDS; try clear randomId; try clear createObjectURL;
  try clear createWavBlob; try clear Blob.

(** The state of the component [App]: its [useState] cells, the [useRef]
    cell [globalKeyIndex], the world, and the log of the requests sent. *)
Record AppState : Type := {
  apiKeys : list ApiKeyData;
  globalKeyIndex : N;
  newKeyInput : string;
  showKeyModal : bool;
  selectedVoice : Voice;
  speed : Hundredths;
  pitch : Tenths;
  isSSML : bool;
  text : string;
  singleLoading : bool;
  singleError : option string;
  singleAudioUrl : option string;
  batchItems : list Item.t;
  selectedIds : list string;
  isBatchProcessing : bool;
  world : World;
  sent : list NetRequest
}.

Definition set_apiKeys (v : list ApiKeyData) (s : AppState) : AppState :=
  {| apiKeys := v; globalKeyIndex := globalKeyIndex s;
     newKeyInput := newKeyInput s; showKeyModal := showKeyModal s;
     selectedVoice := selectedVoice s; speed := speed s; pitch := pitch s;
     isSSML := isSSML s; text := text s; singleLoading := singleLoading s;
     singleError := singleError s; singleAudioUrl := singleAudioUrl s;
     batchItems := batchItems s; selectedIds := selectedIds s;
     isBatchProcessing := isBatchProcessing s; world := world s;
     sent := sent s |}.

Definition set_globalKeyIndex (v : N) (s : AppState) : AppState :=
  {| apiKeys := apiKeys s; globalKeyIndex := v; newKeyInput := newKeyInput s;
     showKeyModal := showKeyModal s; selectedVoice := selectedVoice s;
     speed := speed s; pitch := pitch s; isSSML := isSSML s; text := text s;
     singleLoading := singleLoading s; singleError := singleError s;
     singleAudioUrl := singleAudioUrl s; batchItems := batchItems s;
     selectedIds := selectedIds s; isBatchProcessing := isBatchProcessing s;
     world := world s; sent := sent s |}.

Definition set_newKeyInput (v : string) (s : AppState) : AppState :=
  {| apiKeys := apiKeys s; globalKeyIndex := globalKeyIndex s;
     newKeyInput := v; showKeyModal := showKeyModal s;
     selectedVoice := selectedVoice s; speed := speed s; pitch := pitch s;
     isSSML := isSSML s; text := text s; singleLoading := singleLoading s;
     singleError := singleError s; singleAudioUrl := singleAudioUrl s;
     batchItems := batchItems s; selectedIds := selectedIds s;
     isBatchProcessing := isBatchProcessing s; world := world s;
     sent := sent s |}.

Definition set_showKeyModal (v : bool) (s : AppState) : AppState :=
  {| apiKeys := apiKeys s; globalKeyIndex := globalKeyIndex s;
     newKeyInput := newKeyInput s; showKeyModal := v;
     selectedVoice := selectedVoice s; speed := speed s; pitch := pitch s;
     isSSML := isSSML s; text := text s; singleLoading := singleLoading s;
     singleError := singleError s; singleAudioUrl := singleAudioUrl s;
     batchItems := batchItems s; selectedIds := selectedIds s;
     isBatchProcessing := isBatchProcessing s; world := world s;
     sent := sent s |}.

Definition set_singleLoading (v : bool) (s : AppState) : AppState :=
  {| apiKeys := apiKeys s; globalKeyIndex := globalKeyIndex s;
     newKeyInput := newKeyInput s; showKeyModal := showKeyModal s;
     selectedVoice := selectedVoice s; speed := speed s; pitch := pitch s;
     isSSML := isSSML s; text := text s; singleLoading := v;
     singleError := singleError s; singleAudioUrl := singleAudioUrl s;
     batchItems := batchItems s; selectedIds := selectedIds s;
     isBatchProcessing := isBatchProcessing s; world := world s;
     sent := sent s |}.

Definition set_singleError (v : option string) (s : AppState) : AppState :=
  {| apiKeys := apiKeys s; globalKeyIndex := globalKeyIndex s;
     newKeyInput := newKeyInput s; showKeyModal := showKeyModal s;
     selectedVoice := selectedVoice s; speed := speed s; pitch := pitch s;
     isSSML := isSSML s; text := text s; singleLoading := singleLoading s;
     singleError := v; singleAudioUrl := singleAudioUrl s;
     batchItems := batchItems s; selectedIds := selectedIds s;
     isBatchProcessing := isBatchProcessing s; world := world s;
     sent := sent s |}.

Definition set_singleAudioUrl (v : option string) (s : AppState) : AppState :=
  {| apiKeys := apiKeys s; globalKeyIndex := globalKeyIndex s;
     newKeyInput := newKeyInput s; showKeyModal := showKeyModal s;
     selectedVoice := selectedVoice s; speed := speed s; pitch := pitch s;
     isSSML := isSSML s; text := text s; singleLoading := singleLoading s;
     singleError := singleError s; singleAudioUrl := v;
     batchItems := batchItems s; selectedIds := selectedIds s;
     isBatchProcessing := isBatchProcessing s; world := world s;
     sent := sent s |}.

Definition set_batchItems (v : list Item.t) (s : AppState) : AppState :=
  {| apiKeys := apiKeys s; globalKeyIndex := globalKeyIndex s;
     newKeyInput := newKeyInput s; showKeyModal := showKeyModal s;
     selectedVoice := selectedVoice s; speed := speed s; pitch := pitch s;
     isSSML := isSSML s; text := text s; singleLoading := singleLoading s;
     singleError := singleError s; singleAudioUrl := singleAudioUrl s;
     batchItems := v; selectedIds := selectedIds s;
     isBatchProcessing := isBatchProcessing s; world := world s;
     sent := sent s |}.

Definition set_selectedIds (v : list string) (s : AppState) : AppState :=
  {| apiKeys := apiKeys s; globalKeyIndex := globalKeyIndex s;
     newKeyInput := newKeyInput s; showKeyModal := showKeyModal s;
     selectedVoice := selectedVoice s; speed := speed s; pitch := pitch s;
     isSSML := isSSML s; text := text s; singleLoading := singleLoading s;
     singleError := singleError s; singleAudioUrl := singleAudioUrl s;
     batchItems := batchItems s; selectedIds := v;
     isBatchProcessing := isBatchProcessing s; world := world s;
     sent := sent s |}.

Definition set_isBatchProcessing (v : bool) (s : AppState) : AppState :=
  {| apiKeys := apiKeys s; globalKeyIndex := globalKeyIndex s;
     newKeyInput := newKeyInput s; showKeyModal := showKeyModal s;
     selectedVoice := selectedVoice s; speed := speed s; pitch := pitch s;
     isSSML := isSSML s; text := text s; singleLoading := singleLoading s;
     singleError := singleError s; singleAudioUrl := singleAudioUrl s;
     batchItems := batchItems s; selectedIds := selectedIds s;
     isBatchProcessing := v; world := world s; sent := sent s |}.

Definition set_world (v : World) (s : AppState) : AppState :=
  {| apiKeys := apiKeys s; globalKeyIndex := globalKeyIndex s;
     newKeyInput := newKeyInput s; showKeyModal := showKeyModal s;
     selectedVoice := selectedVoice s; speed := speed s; pitch := pitch s;
     isSSML := isSSML s; text := text s; singleLoading := singleLoading s;
     singleError := singleError s; singleAudioUrl := singleAudioUrl s;
     batchItems := batchItems s; selectedIds := selectedIds s;
     isBatchProcessing := isBatchProcessing s; world := v; sent := sent s |}.

Definition set_sent (v : list NetRequest) (s : AppState) : AppState :=
  {| apiKeys := apiKeys s; globalKeyIndex := globalKeyIndex s;
     newKeyInput := newKeyInput s; showKeyModal := showKeyModal s;
     selectedVoice := selectedVoice s; speed := speed s; pitch := pitch s;
     isSSML := isSSML s; text := text s; singleLoading := singleLoading s;
     singleError := singleError s; singleAudioUrl := singleAudioUrl s;
     batchItems := batchItems s; selectedIds := selectedIds s;
     isBatchProcessing := isBatchProcessing s; world := world s;
     sent := v |}.

(** [setApiKeys(prev => f(prev))] and [setBatchItems(prev => f(prev))] *)
Definition setApiKeys (f : list ApiKeyData -> list ApiKeyData) (s : AppState) : AppState :=
  set_apiKeys (f (apiKeys s)) s.

Definition setBatchItems (f : list Item.t -> list Item.t) (s : AppState) : AppState :=
  set_batchItems (f (batchItems s)) s.

Definition setSelectedIds (f : StrSet.t -> StrSet.t) (s : AppState) : AppState :=
  set_selectedIds (f (selectedIds s)) s.

(** ** The speech generation call ([generateSpeech]) *)

Definition noAudioData : JsError :=
  newError "No audio data received from the API.".

Definition generateSpeech (p : Params.t) (apiKey : string) (st : AppState)
  : Promise string * AppState :=
  if negb (Js.truthy apiKey) then
    (Rejected (newError "No API Key provided for this request."), st)
  else
    let (out, w) :=
      generateContent (world st) apiKey (promptText p) (Params.voiceId p) in
    let request :=
      {| req_apiKey := apiKey; req_text := promptText p;
         req_voiceName := Params.voiceId p |} in
    let st' := set_sent (sent st ++ [request]) (set_world w st) in
    match out with
    | Responded (Some base64Audio) =>
        if Js.truthy base64Audio then (Resolved base64Audio, st')
        else (Rejected (rethrow noAudioData), st')
    | Responded None => (Rejected (rethrow noAudioData), st')
    | Threw e => (Rejected (rethrow e), st')
    end.

(** ** Key management *)

(** [handleAddKey]; [now] is the value of [Date.now()]. *)
Definition handleAddKey (now : N) (r st : AppState) : AppState :=
  if negb (Js.truthy (Js.trim (newKeyInput r))) then st
  else if existsb (fun k => key k =? Js.trim (newKeyInput r))%string (apiKeys r)
  then st
  else
    set_newKeyInput EmptyString
      (setApiKeys (fun prev => prev ++ [freshKey (Js.trim (newKeyInput r)) now])
         st).

Definition handleRemoveKey (keyToRemove : string) (st : AppState) : AppState :=
  setApiKeys (filter (fun k => negb (key k =? keyToRemove)%string)) st.

Definition resetKey (keyToReset : string) (k : ApiKeyData) : ApiKeyData :=
  if (key k =? keyToReset)%string then
    {| key := key k; status := active; errorMessage := None;
       usageCount := usageCount k; addedAt := addedAt k |}
  else k.

Definition handleResetKeyStatus (keyToReset : string) (st : AppState)
  : AppState :=
  setApiKeys (map (resetKey keyToReset)) st.

Definition markKey (failedKey reason : string) (isQuota : bool)
  (k : ApiKeyData) : ApiKeyData :=
  if (key k =? failedKey)%string then
    {| key := key k;
       status := if isQuota then quota_exceeded else error;
       errorMessage := Some reason;
       usageCount := usageCount k; addedAt := addedAt k |}
  else k.

Definition markKeyError (failedKey reason : string) (isQuota : bool)
  (st : AppState) : AppState :=
  setApiKeys (map (markKey failedKey reason isQuota)) st.

Definition useKey (usedKey : string) (k : ApiKeyData) : ApiKeyData :=
  if (key k =? usedKey)%string then
    {| key := key k; status := status k; errorMessage := errorMessage k;
       usageCount := usageCount k + 1; addedAt := addedAt k |}
  else k.

Definition incrementKeyUsage (usedKey : string) (st : AppState) : AppState :=
  setApiKeys (map (useKey usedKey)) st.

(** ** Rotation and retry ([attemptGenerate]) *)

(** [apiKeys.filter(k => k.status === 'active' && !attemptedKeys.has(k.key))] *)
Definition eligible (attemptedKeys : StrSet.t) (k : ApiKeyData) : bool :=
  isActive k && negb (StrSet.has attemptedKeys (key k)).

Definition activeKeysOf (apiKeys : list ApiKeyData) (attemptedKeys : StrSet.t)
  : list ApiKeyData :=
  filter (eligible attemptedKeys) apiKeys.

(** [activeKeys[globalKeyIndex.current % activeKeys.length]]; the default is
    never read, the index being below the length. *)
Definition selectKey (index : N) (k0 : ApiKeyData) (rest : list ApiKeyData)
  : ApiKeyData :=
  nth (N.to_nat (index mod N.of_nat (length (k0 :: rest)))) (k0 :: rest) k0.

(** One pass through the body of the loop, as an observer sees it. *)
Record Attempt : Type := {
  at_index : N;
  at_attemptedKeys : StrSet.t;
  at_activeKeys : list ApiKeyData;
  at_selectedKey : ApiKeyData;
  at_outcome : Promise string
}.

Definition attemptOf (attemptedKeys : StrSet.t) (st : AppState)
  (k0 : ApiKeyData) (rest : list ApiKeyData) (out : Promise string)
  : Attempt :=
  {| at_index := globalKeyIndex st;
     at_attemptedKeys := attemptedKeys;
     at_activeKeys := k0 :: rest;
     at_selectedKey := selectKey (globalKeyIndex st) k0 rest;
     at_outcome := out |}.

(** The message [attemptGenerate] keeps of a caught error, and its test for
    a quota failure. *)
Definition failureMessage (e : JsError) : string :=
  orElse (message e) (toString e).

Definition failureIsQuota (e : JsError) : bool :=
  Js.includes "QUOTA_EXCEEDED" (failureMessage e).

Definition noActiveKeys : JsError :=
  newError "No active API keys available. Please check your key list.".

Definition inspect {A : Type} (a : A) : {b : A | a = b} := exist _ a eq_refl.

Lemma filter_length_lt (A : Type) (f g : A -> bool) (l : list A) (x : A) :
  (forall y, f y = true -> g y = true) ->
  In x l -> g x = true -> f x = false ->
  length (filter f l) < length (filter g l).
Proof.
  intros Hfg. induction l as [|a l IH]; simpl; [tauto|].
  assert (Hle : length (filter f l) <= length (filter g l)).
  { clear IH. induction l as [|b l IHl]; simpl; [lia|].
    destruct (f b) eqn:Hf.
    - rewrite (Hfg _ Hf). simpl. lia.
    - destruct (g b); simpl; lia. }
  intros [->|Hin] Hg Hf.
  - rewrite Hg, Hf. simpl. lia.
  - specialize (IH Hin Hg Hf). destruct (f a) eqn:Hfa.
    + rewrite (Hfg _ Hfa). simpl. lia.
    + destruct (g a); simpl; lia.
Qed.

Lemma StrSet_has_add (s : StrSet.t) (x y : string) :
  StrSet.has (StrSet.add x s) y = (x =? y)%string || StrSet.has s y.
Proof.
  unfold StrSet.add, StrSet.has.
  destruct (existsb (String.eqb x) s) eqn:Hx.
  - destruct (String.eqb_spec x y) as [->|]; simpl; [|reflexivity].
    rewrite Hx. reflexivity.
  - rewrite existsb_app. simpl. rewrite orb_false_r, String.eqb_sym.
    apply orb_comm.
Qed.

Lemma selectKey_In (index : N) (k0 : ApiKeyData) (rest : list ApiKeyData) :
  In (selectKey index k0 rest) (k0 :: rest).
Proof.
  unfold selectKey. apply nth_In.
  assert (H : (index mod N.of_nat (length (k0 :: rest))
               < N.of_nat (length (k0 :: rest)))%N).
  { apply N.mod_lt. simpl length. lia. }
  lia.
Qed.

Lemma activeKeysOf_shrinks (apiKeys0 : list ApiKeyData) (attemptedKeys : StrSet.t)
  (k : ApiKeyData) :
  In k (activeKeysOf apiKeys0 attemptedKeys) ->
  length (activeKeysOf apiKeys0 (StrSet.add (key k) attemptedKeys))
  < length (activeKeysOf apiKeys0 attemptedKeys).
Proof.
  unfold activeKeysOf. intros Hin. apply filter_In in Hin as [Hin Hel].
  apply filter_length_lt with (x := k); trivial.
  - intros y. unfold eligible. rewrite StrSet_has_add, negb_orb.
    intros H. apply andb_prop in H as [-> H].
    apply andb_prop in H as [_ ->]. reflexivity.
  - unfold eligible. rewrite StrSet_has_add, String.eqb_refl. simpl.
    apply andb_false_r.
Qed.

Equations? attemptLoop (apiKeys0 : list ApiKeyData) (params : Params.t)
  (attemptedKeys : StrSet.t) (st : AppState)
  : Promise string * AppState * list Attempt
  by wf (length (activeKeysOf apiKeys0 attemptedKeys)) lt :=
attemptLoop apiKeys0 params attemptedKeys st
  with inspect (activeKeysOf apiKeys0 attemptedKeys) := {
  | exist _ [] _ => (Rejected noActiveKeys, st, [])
  | exist _ (k0 :: rest) Hactive
    with inspect
           (generateSpeech params
              (key (selectKey (globalKeyIndex st) k0 rest))
              (set_globalKeyIndex (globalKeyIndex st + 1) st)) := {
    | exist _ (Resolved result, st') _ =>
        (Resolved result,
         incrementKeyUsage (key (selectKey (globalKeyIndex st) k0 rest)) st',
         [attemptOf attemptedKeys st k0 rest (Resolved result)])
    | exist _ (Rejected e, st') _ =>
        let selectedKey := selectKey (globalKeyIndex st) k0 rest in
        let '(r, st'', attempts) :=
          attemptLoop apiKeys0 params
            (StrSet.add (key selectedKey) attemptedKeys)
            (markKeyError (key selectedKey) (failureMessage e)
               (failureIsQuota e) st') in
        (r, st'',
         attemptOf attemptedKeys st k0 rest (Rejected e) :: attempts) } }.
Proof.
  apply activeKeysOf_shrinks. rewrite Hactive. apply selectKey_In.
Qed.

(** [attemptGenerate(params)], called through a closure that captured the
    list [apiKeys0]: the set of attempted keys starts empty. *)
Definition attemptGenerate (apiKeys0 : list ApiKeyData) (params : Params.t)
  (st : AppState) : Promise string * AppState * list Attempt :=
  attemptLoop apiKeys0 params [] st.

(** ** Single mode ([handleSynthesizeSingle]) *)

(** The memoised [violations] of a text. *)
Definition violations (text0 : string) : list string :=
  let lowerText := Js.toLowerCase text0 in
  filter (fun word => Js.includes word lowerText) BANNED_WORDS.

Definition emptyTextError : string := "Please enter some text to synthesize.".

Definition bannedError (found : list string) : string :=
  "Content contains banned words: " +++ Js.join ", " found.

Definition singleFallback : string :=
  "An error occurred. Please check your API keys.".

(** [handleSynthesizeSingle], created in the render [r] and run on the state
    [st].  The attempts made are returned next to the final state. *)
Definition handleSynthesizeSingle (r st : AppState)
  : AppState * list Attempt :=
  if negb (Js.truthy (Js.trim (text r))) then
    (set_singleError (Some emptyTextError) st, [])
  else if 0 <? length (violations (text r)) then
    (set_singleError (Some (bannedError (violations (text r)))) st, [])
  else
    let st1 :=
      set_singleAudioUrl None
        (set_singleLoading true (set_singleError None st)) in
    let '(res, st2, attempts) :=
      attemptGenerate (apiKeys r)
        {| Params.text := text r;
           Params.voiceId := apiId (selectedVoice r);
           Params.speed := speed r;
           Params.pitch := pitch r;
           Params.isSSML := isSSML r |} st1 in
    let st3 :=
      match res with
      | Resolved base64Audio =>
          match createWavBlob base64Audio with
          | inr wavBlob =>
              let (url, w) := createObjectURL (world st2) wavBlob in
              set_singleAudioUrl (Some url) (set_world w st2)
          | inl e =>
              set_singleError (Some (orElse (message e) singleFallback)) st2
          end
      | Rejected e =>
          set_singleError (Some (orElse (message e) singleFallback)) st2
      end in
    (set_singleLoading false st3, attempts).

(** ** Batch mode *)

(** *** CSV ingestion ([handleFileUpload]) *)

(** Strip one pair of wrapping double quotes. *)
Definition unquote (s : string) : string :=
  if Js.startsWith Js.dquote s && Js.endsWith Js.dquote s
  then Js.slice_1_m1 s else s.

(** The body of [dataLines.forEach]: the fields of the row a line gives, or
    nothing when the line is blank or does not match. *)
Definition parseRow (line : string) : option (string * string) :=
  if negb (Js.truthy (Js.trim line)) then None
  else
    match Js.matchRow line with
    | Some (m1, m2) =>
        let stt := unquote (Js.trim m1) in
        let txt := unquote (Js.trim m2) in
        Some (stt, Js.unescapeQuotes txt)
    | None => None
    end.

Definition newItem (id0 stt0 text0 : string) : Item.t :=
  {| Item.id := id0; Item.stt := stt0; Item.text := text0;
     Item.status := Item.idle; Item.audioUrl := None;
     Item.errorMsg := None; Item.usedKey := None |}.

Fixpoint readRows (dataLines : list string) (w : World)
  : list Item.t * World :=
  match dataLines with
  | [] => ([], w)
  | line :: rest =>
      match parseRow line with
      | None => readRows rest w
      | Some (stt0, txt) =>
          let (id0, w1) := randomId w in
          let (items, w2) := readRows rest w1 in
          (newItem id0 stt0 txt :: items, w2)
      end
  end.

(** [reader.onload] of [handleFileUpload], for the content of the file. *)
Definition handleFileUpload (content : string) (st : AppState) : AppState :=
  let lines := Js.splitLines content in
  let dataLines := if 0 <? length lines then tl lines else [] in
  let (newItems, w) := readRows dataLines (world st) in
  setSelectedIds
    (fun prev => fold_left (fun next i => StrSet.add (Item.id i) next)
                   newItems prev)
    (setBatchItems (fun prev => prev ++ newItems) (set_world w st)).

(** *** Running the selected items ([handleGenerateBatch]) *)

Definition withStatus (s : Item.Status) (i : Item.t) : Item.t :=
  {| Item.id := Item.id i; Item.stt := Item.stt i; Item.text := Item.text i;
     Item.status := s; Item.audioUrl := Item.audioUrl i;
     Item.errorMsg := Item.errorMsg i; Item.usedKey := Item.usedKey i |}.

Definition succeeded (url : string) (i : Item.t) : Item.t :=
  {| Item.id := Item.id i; Item.stt := Item.stt i; Item.text := Item.text i;
     Item.status := Item.success; Item.audioUrl := Some url;
     Item.errorMsg := None; Item.usedKey := Item.usedKey i |}.

Definition failed (reason : string) (i : Item.t) : Item.t :=
  {| Item.id := Item.id i; Item.stt := Item.stt i; Item.text := Item.text i;
     Item.status := Item.error; Item.audioUrl := Item.audioUrl i;
     Item.errorMsg := Some reason; Item.usedKey := Item.usedKey i |}.

Definition processBatchItem (r : AppState) (item : Item.t) (st : AppState)
  : Item.t * AppState * list Attempt :=
  let '(res, st1, attempts) :=
    attemptGenerate (apiKeys r)
      {| Params.text := Item.text item;
         Params.voiceId := apiId (selectedVoice r);
         Params.speed := speed r;
         Params.pitch := pitch r;
         Params.isSSML := true |} st in
  match res with
  | Resolved base64Audio =>
      match createWavBlob base64Audio with
      | inr wavBlob =>
          let (url, w) := createObjectURL (world st1) wavBlob in
          (succeeded url item, set_world w st1, attempts)
      | inl e => (failed (orElse (message e) "Failed") item, st1, attempts)
      end
  | Rejected e => (failed (orElse (message e) "Failed") item, st1, attempts)
  end.

(** [next[index] = f(next[index])] on a copy of the array.  An index past
    the end would make JavaScript grow the array; the runs below never
    write past the end (lemma [runItems_length]), and the model leaves the
    list as it is there. *)
Fixpoint updateAt (index : nat) (f : Item.t -> Item.t) (l : list Item.t)
  : list Item.t :=
  match l, index with
  | [], _ => []
  | x :: l', 0 => f x :: l'
  | x :: l', S n => x :: updateAt n f l'
  end.

(** [idx = next.findIndex(i => i.id === resultItem.id);
     if (idx !== -1) next[idx] = resultItem] *)
Fixpoint replaceById (resultItem : Item.t) (l : list Item.t) : list Item.t :=
  match l with
  | [] => []
  | x :: l' =>
      if (Item.id x =? Item.id resultItem)%string then resultItem :: l'
      else x :: replaceById resultItem l'
  end.

Definition isIdleOrError (i : Item.t) : bool :=
  match Item.status i with
  | Item.idle | Item.error => true
  | _ => false
  end.

(** [batchItems.map((item, index) => ({ item, index }))] *)
Fixpoint indexedFrom (n : nat) (l : list Item.t) : list (Item.t * nat) :=
  match l with
  | [] => []
  | x :: l' => (x, n) :: indexedFrom (S n) l'
  end.

Definition itemsToProcess (r : AppState) : list (Item.t * nat) :=
  filter (fun p => StrSet.has (selectedIds r) (Item.id (fst p))
                   && isIdleOrError (fst p))
    (indexedFrom 0 (batchItems r)).

(** The [for] loop of [handleGenerateBatch].  [batchItems[index]] of the
    render is the item the index was paired with.  Next to the state, the
    loop returns the identities of the items it ran, each with the attempts
    made for it, in the order of the runs. *)
Fixpoint runItems (r : AppState) (todo : list (Item.t * nat)) (st : AppState)
  : AppState * list (string * list Attempt) :=
  match todo with
  | [] => (st, [])
  | (currentItem, index) :: todo' =>
      let st1 := setBatchItems (updateAt index (withStatus Item.loading)) st in
      match find (fun i => (Item.id i =? Item.id currentItem)%string)
              (batchItems r) with
      | None => runItems r todo' st1
      | Some freshItem =>
          let '(resultItem, st2, attempts) :=
            processBatchItem r freshItem st1 in
          let st3 := setBatchItems (replaceById resultItem) st2 in
          let (st4, log) := runItems r todo' st3 in
          (st4, (Item.id freshItem, attempts) :: log)
      end
  end.

Definition handleGenerateBatch (r st : AppState)
  : AppState * list (string * list Attempt) :=
  if length (filter isActive (apiKeys r)) =? 0 then
    (set_showKeyModal true st, [])
  else
    let (st', log) :=
      runItems r (itemsToProcess r) (set_isBatchProcessing true st) in
    (set_isBatchProcessing false st', log).

(** * Properties *)

(** ** The rotation loop, one pass at a time *)

Lemma attemptLoop_body (apiKeys0 : list ApiKeyData) (params : Params.t)
  (attemptedKeys : StrSet.t) (st : AppState) :
  attemptLoop apiKeys0 params attemptedKeys st =
  match activeKeysOf apiKeys0 attemptedKeys with
  | [] => (Rejected noActiveKeys, st, [])
  | k0 :: rest =>
      let selectedKey := selectKey (globalKeyIndex st) k0 rest in
      match generateSpeech params (key selectedKey)
              (set_globalKeyIndex (globalKeyIndex st + 1) st) with
      | (Resolved result, st') =>
          (Resolved result, incrementKeyUsage (key selectedKey) st',
           [attemptOf attemptedKeys st k0 rest (Resolved result)])
      | (Rejected e, st') =>
          let '(r, st'', attempts) :=
            attemptLoop apiKeys0 params
              (StrSet.add (key selectedKey) attemptedKeys)
              (markKeyError (key selectedKey) (failureMessage e)
                 (failureIsQuota e) st') in
          (r, st'', attemptOf attemptedKeys st k0 rest (Rejected e) :: attempts)
      end
  end.
Proof.
  funelim (attemptLoop apiKeys0 params attemptedKeys st).
  all: match goal with
       | H : activeKeysOf _ _ = _ |- _ => rewrite H
       end; cbv zeta;
       try match goal with
         | H : generateSpeech _ _ _ = _ |- _ => rewrite H
         end; reflexivity.
Qed.

(** An induction principle that follows the three ways through the body of
    the loop: no eligible key, a successful attempt, a failed attempt
    followed by the rest of the loop. *)
Section LoopRule.

Variable apiKeys0 : list ApiKeyData.
Variable params : Params.t.
Variable P :
  StrSet.t -> AppState -> Promise string * AppState * list Attempt -> Prop.

Hypothesis P_none : forall attemptedKeys st,
  activeKeysOf apiKeys0 attemptedKeys = [] ->
  P attemptedKeys st (Rejected noActiveKeys, st, []).

Hypothesis P_success : forall attemptedKeys st k0 rest result st',
  activeKeysOf apiKeys0 attemptedKeys = k0 :: rest ->
  generateSpeech params (key (selectKey (globalKeyIndex st) k0 rest))
    (set_globalKeyIndex (globalKeyIndex st + 1) st) = (Resolved result, st') ->
  P attemptedKeys st
    (Resolved result,
     incrementKeyUsage (key (selectKey (globalKeyIndex st) k0 rest)) st',
     [attemptOf attemptedKeys st k0 rest (Resolved result)]).

Hypothesis P_retry : forall attemptedKeys st k0 rest e st' r st'' attempts,
  activeKeysOf apiKeys0 attemptedKeys = k0 :: rest ->
  generateSpeech params (key (selectKey (globalKeyIndex st) k0 rest))
    (set_globalKeyIndex (globalKeyIndex st + 1) st) = (Rejected e, st') ->
  attemptLoop apiKeys0 params
    (StrSet.add (key (selectKey (globalKeyIndex st) k0 rest)) attemptedKeys)
    (markKeyError (key (selectKey (globalKeyIndex st) k0 rest))
       (failureMessage e) (failureIsQuota e) st') = (r, st'', attempts) ->
  P (StrSet.add (key (selectKey (globalKeyIndex st) k0 rest)) attemptedKeys)
    (markKeyError (key (selectKey (globalKeyIndex st) k0 rest))
       (failureMessage e) (failureIsQuota e) st')
    (r, st'', attempts) ->
  P attemptedKeys st
    (r, st'', attemptOf attemptedKeys st k0 rest (Rejected e) :: attempts).

Lemma attemptLoop_rule : forall attemptedKeys st,
  P attemptedKeys st (attemptLoop apiKeys0 params attemptedKeys st).
Proof using P_none P_success P_retry.
  intros attemptedKeys.
  remember (length (activeKeysOf apiKeys0 attemptedKeys)) as n eqn:Hn.
  revert attemptedKeys Hn.
  induction n as [n IH] using lt_wf_ind. intros attemptedKeys Hn st.
  rewrite attemptLoop_body.
  destruct (activeKeysOf apiKeys0 attemptedKeys) as [|k0 rest] eqn:Hactive.
  - apply P_none; assumption.
  - cbv zeta.
    destruct (generateSpeech params
                (key (selectKey (globalKeyIndex st) k0 rest))
                (set_globalKeyIndex (globalKeyIndex st + 1) st))
      as [[result|e] st'] eqn:Hcall.
    + apply P_success; assumption.
    + destruct (attemptLoop apiKeys0 params
                  (StrSet.add (key (selectKey (globalKeyIndex st) k0 rest))
                     attemptedKeys)
                  (markKeyError (key (selectKey (globalKeyIndex st) k0 rest))
                     (failureMessage e) (failureIsQuota e) st'))
        as [[r st''] attempts] eqn:Hloop.
      apply P_retry with (st' := st'); try assumption.
      rewrite <- Hloop. eapply IH; [|reflexivity].
      subst n. rewrite <- Hactive. apply activeKeysOf_shrinks.
      rewrite Hactive. apply selectKey_In.
Qed.

End LoopRule.

(** [generateSpeech] touches the world and the log of requests only. *)
Lemma generateSpeech_frame (p : Params.t) (apiKey : string) (st : AppState) :
  forall r st', generateSpeech p apiKey st = (r, st') ->
  st' = set_sent (sent st') (set_world (world st') st).
Proof.
  intros r st'. unfold generateSpeech.
  destruct (negb (Js.truthy apiKey)).
  - intros [= _ <-]. destruct st; reflexivity.
  - destruct (generateContent (world st) apiKey (promptText p)
                (Params.voiceId p)) as [out w].
    destruct out as [[a|]|e]; [destruct (Js.truthy a)| |];
      intros [= _ <-]; reflexivity.
Qed.

(** Every error [generateSpeech] throws carries a message. *)
Lemma rethrow_message (e : JsError) : Js.truthy (message (rethrow e)) = true.
Proof.
  unfold rethrow.
  destruct (Js.includes "429" (toString e) || Js.includes "Quota" (toString e));
    [reflexivity|].
  destruct (Js.includes "403" (toString e)
            || Js.includes "API key" (toString e)); [reflexivity|].
  unfold orElse. simpl message.
  destruct (Js.truthy (message e)) eqn:H; [assumption | reflexivity].
Qed.

Lemma generateSpeech_rejected (p : Params.t) (apiKey : string) (st : AppState) :
  forall e st', generateSpeech p apiKey st = (Rejected e, st') ->
  Js.truthy (message e) = true.
Proof.
  intros e st'. unfold generateSpeech.
  destruct (negb (Js.truthy apiKey)).
  - intros [= <- _]. reflexivity.
  - destruct (generateContent (world st) apiKey (promptText p)
                (Params.voiceId p)) as [out w].
    destruct out as [[a|]|e0]; [destruct (Js.truthy a)| |];
      intros [= <- _]; try discriminate; apply rethrow_message.
Qed.

(** ** What the attempts of one call look like *)

Definition triedKey (a : Attempt) : string := key (at_selectedKey a).

Definition isRejected (a : Attempt) : Prop :=
  exists e, at_outcome a = Rejected e.

(** The rotation rule, read along the attempts of one call: each attempt
    sees the exclusion set left by the attempts before it, filters the
    captured list by it, indexes the filtered list with the cursor modulo
    the length of the filtered list, and leaves the cursor one further. *)
Fixpoint rotates (apiKeys0 : list ApiKeyData) (attemptedKeys : StrSet.t)
  (cursor : N) (attempts : list Attempt) : Prop :=
  match attempts with
  | [] => True
  | a :: rest =>
      at_attemptedKeys a = attemptedKeys /\
      at_activeKeys a =
        filter (fun k => isActive k
                         && negb (StrSet.has attemptedKeys (key k))) apiKeys0 /\
      at_index a = cursor /\
      nth_error (at_activeKeys a)
        (N.to_nat (cursor mod N.of_nat (length (at_activeKeys a))))
      = Some (at_selectedKey a) /\
      rotates apiKeys0 (StrSet.add (triedKey a) attemptedKeys)
        (cursor + 1) rest
  end.

Lemma selectKey_nth_error (index : N) (k0 : ApiKeyData)
  (rest : list ApiKeyData) :
  nth_error (k0 :: rest)
    (N.to_nat (index mod N.of_nat (length (k0 :: rest))))
  = Some (selectKey index k0 rest).
Proof.
  unfold selectKey. apply nth_error_nth'.
  assert (H : (index mod N.of_nat (length (k0 :: rest))
               < N.of_nat (length (k0 :: rest)))%N).
  { apply N.mod_lt. simpl length. lia. }
  lia.
Qed.

Lemma attemptLoop_frame (apiKeys0 : list ApiKeyData) (params : Params.t) :
  forall attemptedKeys st,
  let st' := snd (fst (attemptLoop apiKeys0 params attemptedKeys st)) in
  st' = set_sent (sent st')
          (set_world (world st')
             (set_globalKeyIndex (globalKeyIndex st')
                (set_apiKeys (apiKeys st') st))).
Proof.
  apply attemptLoop_rule
    with (P := fun _ st res =>
                 snd (fst res)
                 = set_sent (sent (snd (fst res)))
                     (set_world (world (snd (fst res)))
                        (set_globalKeyIndex (globalKeyIndex (snd (fst res)))
                           (set_apiKeys (apiKeys (snd (fst res))) st)))).
  - intros _ st _. destruct st; reflexivity.
  - intros att st k0 rest result st' _ Hcall. simpl.
    apply generateSpeech_frame in Hcall. rewrite Hcall. reflexivity.
  - intros att st k0 rest e st' r st'' attempts _ Hcall _ IH. simpl in *.
    apply generateSpeech_frame in Hcall. rewrite IH, Hcall. reflexivity.
Qed.

Lemma attemptLoop_rotates (apiKeys0 : list ApiKeyData) (params : Params.t) :
  forall attemptedKeys st,
  let res := attemptLoop apiKeys0 params attemptedKeys st in
  rotates apiKeys0 attemptedKeys (globalKeyIndex st) (snd res) /\
  globalKeyIndex (snd (fst res))
  = (globalKeyIndex st + N.of_nat (length (snd res)))%N.
Proof.
  apply attemptLoop_rule
    with (P := fun att st res =>
                 rotates apiKeys0 att (globalKeyIndex st) (snd res) /\
                 globalKeyIndex (snd (fst res))
                 = (globalKeyIndex st + N.of_nat (length (snd res)))%N).
  - intros att st _. simpl. split; [exact I | lia].
  - intros att st k0 rest result st' Hactive Hcall.
    apply generateSpeech_frame in Hcall. rewrite Hcall.
    cbn [rotates attemptOf at_attemptedKeys at_activeKeys at_index
         at_selectedKey snd fst].
    split; [|simpl; lia].
    split; [reflexivity|]. split; [symmetry; exact Hactive|].
    split; [reflexivity|]. split; [apply selectKey_nth_error | exact I].
  - intros att st k0 rest e st' r st'' attempts Hactive Hcall _ [IH1 IH2].
    apply generateSpeech_frame in Hcall. rewrite Hcall in IH1, IH2.
    cbn [rotates attemptOf at_attemptedKeys at_activeKeys at_index
         at_selectedKey snd fst] in *.
    split; [|simpl in *; lia].
    split; [reflexivity|]. split; [symmetry; exact Hactive|].
    split; [reflexivity|]. split; [apply selectKey_nth_error | exact IH1].
Qed.

Lemma activeKeysOf_In (apiKeys0 : list ApiKeyData) (attemptedKeys : StrSet.t)
  (k : ApiKeyData) :
  In k (activeKeysOf apiKeys0 attemptedKeys) <->
  In k apiKeys0 /\ isActive k = true /\ StrSet.has attemptedKeys (key k) = false.
Proof.
  unfold activeKeysOf, eligible. rewrite filter_In, andb_true_iff, negb_true_iff.
  tauto.
Qed.

Lemma attemptLoop_outcome (apiKeys0 : list ApiKeyData) (params : Params.t) :
  forall attemptedKeys st,
  let res := attemptLoop apiKeys0 params attemptedKeys st in
  let tried := map triedKey (snd res) in
  NoDup tried /\
  (forall k, In k tried ->
     StrSet.has attemptedKeys k = false /\
     exists c, In c apiKeys0 /\ isActive c = true /\ key c = k) /\
  match fst (fst res) with
  | Resolved payload =>
      exists before last,
        snd res = before ++ [last] /\
        at_outcome last = Resolved payload /\
        Forall isRejected before
  | Rejected e =>
      e = noActiveKeys /\
      Forall isRejected (snd res) /\
      forall c, In c apiKeys0 -> isActive c = true ->
        StrSet.has attemptedKeys (key c) = true \/ In (key c) tried
  end.
Proof.
  tidy.
  apply attemptLoop_rule
    with (P := fun att st res =>
      NoDup (map triedKey (snd res)) /\
      (forall k, In k (map triedKey (snd res)) ->
         StrSet.has att k = false /\
         exists c, In c apiKeys0 /\ isActive c = true /\ key c = k) /\
      match fst (fst res) with
      | Resolved payload =>
          exists before last,
            snd res = before ++ [last] /\
            at_outcome last = Resolved payload /\
            Forall isRejected before
      | Rejected e =>
          e = noActiveKeys /\
          Forall isRejected (snd res) /\
          forall c, In c apiKeys0 -> isActive c = true ->
            StrSet.has att (key c) = true \/ In (key c) (map triedKey (snd res))
      end).
  - intros att st Hnone. simpl. repeat split.
    + constructor.
    + contradiction.
    + contradiction.
    + constructor.
    + intros c Hin Hact. left.
      destruct (StrSet.has att (key c)) eqn:Hhas; [reflexivity|].
      assert (Hc : In c (activeKeysOf apiKeys0 att))
        by (apply activeKeysOf_In; auto).
      rewrite Hnone in Hc. contradiction.
  - intros att st k0 rest result st' Hactive _.
    pose proof (selectKey_In (globalKeyIndex st) k0 rest) as Hsel.
    rewrite <- Hactive in Hsel. apply activeKeysOf_In in Hsel.
    destruct Hsel as (Hin & Hact & Hhas).
    simpl. repeat split.
    + constructor; [simpl; tauto | constructor].
    + destruct H as [<-|[]]. assumption.
    + destruct H as [<-|[]]. eauto.
    + exists [], (attemptOf att st k0 rest (Resolved result)).
      repeat split. constructor.
  - intros att st k0 rest e st' r st'' attempts Hactive _ _ (IH1 & IH2 & IH3).
    pose proof (selectKey_In (globalKeyIndex st) k0 rest) as Hsel.
    rewrite <- Hactive in Hsel. apply activeKeysOf_In in Hsel.
    destruct Hsel as (Hin & Hact & Hhas).
    simpl in *. repeat split.
    + constructor; [|assumption].
      intros Hk. apply IH2 in Hk. destruct Hk as [Hk _].
      rewrite StrSet_has_add in Hk. unfold triedKey in Hk. simpl in Hk.
      rewrite String.eqb_refl in Hk. discriminate.
    + destruct H as [<-|Hk]; [assumption|].
      apply IH2 in Hk. destruct Hk as [Hk _].
      rewrite StrSet_has_add in Hk. apply orb_false_elim in Hk. tauto.
    + destruct H as [<-|Hk]; [eauto|].
      apply IH2 in Hk. tauto.
    + destruct r as [payload|e'].
      * destruct IH3 as (before & last & -> & Hlast & Hbefore).
        exists (attemptOf att st k0 rest (Rejected e) :: before), last.
        repeat split; try assumption.
        constructor; [eexists; reflexivity | assumption].
      * destruct IH3 as (-> & Hall & Hcover). repeat split.
        -- constructor; [eexists; reflexivity | assumption].
        -- intros c Hc Hcact. destruct (Hcover c Hc Hcact) as [Hh|Hh].
           ++ rewrite StrSet_has_add in Hh. apply orb_prop in Hh.
              destruct Hh as [Hh|Hh]; [|tauto].
              apply String.eqb_eq in Hh. right. left. exact Hh.
           ++ tauto.
Qed.

Lemma attemptLoop_bounded (apiKeys0 : list ApiKeyData) (params : Params.t) :
  forall attemptedKeys st,
  length (snd (attemptLoop apiKeys0 params attemptedKeys st))
  <= length (activeKeysOf apiKeys0 attemptedKeys).
Proof.
  apply attemptLoop_rule
    with (P := fun att _ res =>
                 length (snd res) <= length (activeKeysOf apiKeys0 att)).
  - intros; simpl; lia.
  - intros att st k0 rest result st' -> _. simpl. lia.
  - intros att st k0 rest e st' r st'' attempts Hactive _ _ IH. simpl in *.
    pose proof (selectKey_In (globalKeyIndex st) k0 rest) as Hsel.
    rewrite <- Hactive in Hsel. apply activeKeysOf_shrinks in Hsel. lia.
Qed.

(** ** What the attempts of one call do to the credentials *)

(** The effect of one attempt on one credential of the state. *)
Definition entryAfter (a : Attempt) (c : ApiKeyData) : ApiKeyData :=
  match at_outcome a with
  | Resolved _ => useKey (triedKey a) c
  | Rejected e => markKey (triedKey a) (failureMessage e) (failureIsQuota e) c
  end.

Definition entryAfterAll (attempts : list Attempt) (c : ApiKeyData)
  : ApiKeyData :=
  fold_left (fun c' a => entryAfter a c') attempts c.

Lemma attemptLoop_store (apiKeys0 : list ApiKeyData) (params : Params.t) :
  forall attemptedKeys st,
  let res := attemptLoop apiKeys0 params attemptedKeys st in
  apiKeys (snd (fst res)) = map (entryAfterAll (snd res)) (apiKeys st).
Proof.
  apply attemptLoop_rule
    with (P := fun _ st res =>
                 apiKeys (snd (fst res))
                 = map (entryAfterAll (snd res)) (apiKeys st)).
  - intros _ st _. simpl. symmetry. apply map_id.
  - intros att st k0 rest result st' _ Hcall.
    apply generateSpeech_frame in Hcall. rewrite Hcall. reflexivity.
  - intros att st k0 rest e st' r st'' attempts _ Hcall _ IH.
    apply generateSpeech_frame in Hcall. rewrite Hcall in IH.
    simpl in *. rewrite IH, map_map. reflexivity.
Qed.

Lemma attemptLoop_errors (apiKeys0 : list ApiKeyData) (params : Params.t) :
  forall attemptedKeys st,
  Forall (fun a => forall e, at_outcome a = Rejected e ->
                             Js.truthy (message e) = true)
    (snd (attemptLoop apiKeys0 params attemptedKeys st)).
Proof.
  apply attemptLoop_rule
    with (P := fun _ _ res =>
                 Forall (fun a => forall e, at_outcome a = Rejected e ->
                                            Js.truthy (message e) = true)
                   (snd res)).
  - intros; constructor.
  - intros. constructor; [|constructor]. simpl. discriminate.
  - intros att st k0 rest e st' r st'' attempts _ Hcall _ IH.
    constructor; [|exact IH]. simpl. intros e' [= <-].
    eapply generateSpeech_rejected; eassumption.
Qed.

Lemma key_entryAfter (a : Attempt) (c : ApiKeyData) :
  key (entryAfter a c) = key c.
Proof.
  unfold entryAfter, useKey, markKey.
  destruct (at_outcome a); destruct (key c =? triedKey a)%string; reflexivity.
Qed.

Lemma key_entryAfterAll (attempts : list Attempt) (c : ApiKeyData) :
  key (entryAfterAll attempts c) = key c.
Proof.
  revert c. induction attempts as [|a l IH]; intros c; [reflexivity|].
  unfold entryAfterAll in *. simpl. rewrite IH. apply key_entryAfter.
Qed.

Lemma entryAfter_other (a : Attempt) (c : ApiKeyData) :
  triedKey a <> key c -> entryAfter a c = c.
Proof.
  intros Hne. unfold entryAfter, useKey, markKey.
  destruct (String.eqb_spec (key c) (triedKey a)) as [Heq|_];
    [congruence|].
  destruct (at_outcome a); reflexivity.
Qed.

Lemma entryAfterAll_other (attempts : list Attempt) (c : ApiKeyData) :
  ~ In (key c) (map triedKey attempts) -> entryAfterAll attempts c = c.
Proof.
  induction attempts as [|a l IH]; intros Hnot; [reflexivity|].
  unfold entryAfterAll in *. simpl in *.
  rewrite entryAfter_other by tauto. apply IH. tauto.
Qed.

Lemma entryAfterAll_tried (attempts : list Attempt) (a : Attempt)
  (c : ApiKeyData) :
  NoDup (map triedKey attempts) -> In a attempts -> triedKey a = key c ->
  entryAfterAll attempts c = entryAfter a c.
Proof.
  induction attempts as [|a0 l IH]; intros Hnd Hin Hkey; [contradiction|].
  simpl in Hnd. apply NoDup_cons_iff in Hnd as [Hfresh Hnd].
  unfold entryAfterAll in *. simpl.
  destruct Hin as [->|Hin].
  - apply entryAfterAll_other. rewrite key_entryAfter, <- Hkey. exact Hfresh.
  - rewrite entryAfter_other.
    + apply IH; assumption.
    + rewrite <- Hkey. intros Heq. apply Hfresh. rewrite Heq.
      apply in_map. exact Hin.
Qed.


Lemma truthy_nonempty (s : string) : Js.truthy s = true <-> s <> EmptyString.
Proof.
  destruct s; unfold Js.truthy; simpl; split; intros H;
    try discriminate; try reflexivity; congruence.
Qed.

Lemma failureMessage_truthy (e : JsError) :
  Js.truthy (message e) = true -> Js.truthy (failureMessage e) = true.
Proof.
  intros H. unfold failureMessage, orElse. rewrite H. exact H.
Qed.




(** A credential whose attempt failed is found, at the end of the call,
    as [markKeyError] left it. *)
Lemma attemptLoop_failed_entry (apiKeys0 : list ApiKeyData)
  (params : Params.t) (attemptedKeys : StrSet.t) (st : AppState)
  (a : Attempt) (e : JsError) (c : ApiKeyData) :
  let res := attemptLoop apiKeys0 params attemptedKeys st in
  In a (snd res) -> at_outcome a = Rejected e ->
  In c (apiKeys (snd (fst res))) -> key c = triedKey a ->
  status c = (if failureIsQuota e then quota_exceeded else error) /\
  errorMessage c = Some (failureMessage e) /\
  Js.truthy (failureMessage e) = true.
Proof.
  intros res Ha Hout Hc Hkey. subst res.
  rewrite attemptLoop_store in Hc. apply in_map_iff in Hc.
  destruct Hc as (c0 & <- & Hc0).
  rewrite key_entryAfterAll in Hkey.
  destruct (attemptLoop_outcome apiKeys0 params attemptedKeys st) as (Hnd & _).
  rewrite entryAfterAll_tried with (a := a);
    [| exact Hnd | exact Ha | symmetry; exact Hkey].
  unfold entryAfter, markKey. rewrite Hout, Hkey, String.eqb_refl. simpl.
  repeat split. apply failureMessage_truthy.
  pose proof (attemptLoop_errors apiKeys0 params attemptedKeys st) as Herr.
  rewrite Forall_forall in Herr. eapply Herr; eassumption.
Qed.

Lemma activeKeysOf_nil (apiKeys0 : list ApiKeyData) :
  activeKeysOf apiKeys0 [] = filter isActive apiKeys0.
Proof.
  unfold activeKeysOf. apply filter_ext. intros k. unfold eligible. simpl.
  apply andb_true_r.
Qed.

Lemma isActive_true (c : ApiKeyData) : isActive c = true <-> status c = active.
Proof.
  unfold isActive. destruct (status c); split; congruence.
Qed.

(** ** The rotation engine *)






(** X19.  The rotation rule, relative to the list the call captured.  Along
    the attempts of one call: the exclusion set starts empty and grows by
    the key just tried; the eligible list is the captured list filtered, in
    its order, by status active and by the exclusion set; the key tried is
    the element at the cursor modulo the length of that filtered list; the
    cursor, a cell of the state that a call reads where the call before
    left it, advances by one per attempt. *)
Theorem attemptGenerate_round_robin (apiKeys0 : list ApiKeyData)
  (params : Params.t) (st : AppState) :
  let '(_, st', attempts) := attemptGenerate apiKeys0 params st in
  rotates apiKeys0 [] (globalKeyIndex st) attempts /\
  globalKeyIndex st' = (globalKeyIndex st + N.of_nat (length attempts))%N /\
  forall apiKeys1 params1,
    let '(_, _, attempts1) := attemptGenerate apiKeys1 params1 st' in
    rotates apiKeys1 []
      (globalKeyIndex st + N.of_nat (length attempts))%N attempts1.
Proof.
  unfold attemptGenerate.
  pose proof (attemptLoop_rotates apiKeys0 params [] st) as [Hrot Hidx].
  destruct (attemptLoop apiKeys0 params [] st) as [[r st'] attempts].
  simpl in *. repeat split; try assumption.
  intros apiKeys1 params1.
  pose proof (attemptLoop_rotates apiKeys1 params1 [] st') as [Hrot1 _].
  destruct (attemptLoop apiKeys1 params1 [] st') as [[r1 st1] attempts1].
  simpl in *. rewrite <- Hidx. exact Hrot1.
Qed.

(** ** The invariant of the credential set *)











(** ** Classification of remote failures *)

Inductive FailureClass : Type :=
| QuotaExceeded
| InvalidCredential
| OtherRemoteFailure.

(** The class of a failure, read off the markers in its text, the markers of
    a quota failure being looked for first. *)
Definition classify (errorText : string) : FailureClass :=
  if Js.includes "429" errorText || Js.includes "Quota" errorText
  then QuotaExceeded
  else if Js.includes "403" errorText || Js.includes "API key" errorText
  then InvalidCredential
  else OtherRemoteFailure.

(** The status each class is said to give the credential. *)
Definition statusOfClass (c : FailureClass) : ApiKeyStatus :=
  match c with
  | QuotaExceeded => quota_exceeded
  | InvalidCredential => error
  | OtherRemoteFailure => error
  end.

(** The status the code gives it: as above, but a failure of the third class
    whose message holds the token QUOTA_EXCEEDED counts as a quota failure,
    [attemptGenerate] looking for that token in the message it is given. *)
Definition markedAs (e : JsError) : ApiKeyStatus :=
  match classify (toString e) with
  | QuotaExceeded => quota_exceeded
  | InvalidCredential => error
  | OtherRemoteFailure =>
      if Js.includes "QUOTA_EXCEEDED" (message e) then quota_exceeded
      else error
  end.

(** The message kept on the credential. *)
Definition messageKept (e : JsError) : string :=
  match classify (toString e) with
  | QuotaExceeded => "QUOTA_EXCEEDED"
  | InvalidCredential => "INVALID_KEY"
  | OtherRemoteFailure => orElse (message e) "Unknown error during generation"
  end.

(** A remote failure: the service threw, or answered without audio data. *)
Definition remoteFailure (out : RemoteOutcome) : option JsError :=
  match out with
  | Threw e => Some e
  | Responded None => Some noAudioData
  | Responded (Some base64Audio) =>
      if Js.truthy base64Audio then None else Some noAudioData
  end.

(** "The credential used for a failed remote call ends with the status
    [statusOf] assigns to the failure": the shape shared by the sentence of
    the specification and by its amended form. *)
Definition failureMarks (statusOf : JsError -> ApiKeyStatus) : Prop :=
  forall apiKeys0 params attemptedKeys st k0 rest out w e c,
    activeKeysOf apiKeys0 attemptedKeys = k0 :: rest ->
    Js.truthy (key (selectKey (globalKeyIndex st) k0 rest)) = true ->
    generateContent (world st) (key (selectKey (globalKeyIndex st) k0 rest))
      (promptText params) (Params.voiceId params) = (out, w) ->
    remoteFailure out = Some e ->
    In c (apiKeys (snd (fst (attemptLoop apiKeys0 params attemptedKeys st)))) ->
    key c = key (selectKey (globalKeyIndex st) k0 rest) ->
    status c = statusOf e.

Lemma generateSpeech_remoteFailure (p : Params.t) (apiKey : string)
  (st : AppState) (out : RemoteOutcome) (w : World) (e : JsError) :
  Js.truthy apiKey = true ->
  generateContent (world st) apiKey (promptText p) (Params.voiceId p)
  = (out, w) ->
  remoteFailure out = Some e ->
  fst (generateSpeech p apiKey st) = Rejected (rethrow e).
Proof.
  intros Hkey Hout Hfail. unfold generateSpeech. rewrite Hkey, Hout. simpl.
  destruct out as [[a|]|e0]; simpl in Hfail.
  - destruct (Js.truthy a); [discriminate|]. injection Hfail as <-. reflexivity.
  - injection Hfail as <-. reflexivity.
  - injection Hfail as <-. reflexivity.
Qed.

Lemma failureMessage_rethrow (e : JsError) :
  failureMessage (rethrow e) = messageKept e.
Proof.
  unfold failureMessage, messageKept, rethrow, classify.
  destruct (Js.includes "429" (toString e) || Js.includes "Quota" (toString e));
    [reflexivity|].
  destruct (Js.includes "403" (toString e)
            || Js.includes "API key" (toString e)); [reflexivity|].
  unfold orElse at 1. simpl message.
  destruct (Js.truthy (orElse (message e) "Unknown error during generation"))
    eqn:H; [reflexivity|].
  unfold orElse in H. destruct (Js.truthy (message e)) eqn:H'; [congruence|].
  discriminate.
Qed.

Lemma failureIsQuota_rethrow (e : JsError) :
  (if failureIsQuota (rethrow e) then quota_exceeded else error) = markedAs e.
Proof.
  unfold failureIsQuota. rewrite failureMessage_rethrow.
  unfold messageKept, markedAs.
  destruct (classify (toString e)); try reflexivity.
  unfold orElse. destruct (Js.truthy (message e)) eqn:H; [reflexivity|].
  destruct (message e); [reflexivity | discriminate].
Qed.

(** Claim C5, as amended.  A remote failure is classified by the markers in
    its text, a quota marker winning over a credential marker; the
    credential used is marked [quota_exceeded] for a quota failure and
    [error] for an invalid credential; any other failure marks it [error],
    unless the message of the failure holds the token QUOTA_EXCEEDED, which
    marks it [quota_exceeded].  The message kept with the status is the
    name of the class for the first two and the message of the failure (or
    a fixed text when it has none) for the third. *)
Theorem remote_failure_marks_credential
  (apiKeys0 : list ApiKeyData) (params : Params.t) (attemptedKeys : StrSet.t)
  (st : AppState) (k0 : ApiKeyData) (rest : list ApiKeyData)
  (out : RemoteOutcome) (w : World) (e : JsError) (c : ApiKeyData) :
  activeKeysOf apiKeys0 attemptedKeys = k0 :: rest ->
  Js.truthy (key (selectKey (globalKeyIndex st) k0 rest)) = true ->
  generateContent (world st) (key (selectKey (globalKeyIndex st) k0 rest))
    (promptText params) (Params.voiceId params) = (out, w) ->
  remoteFailure out = Some e ->
  In c (apiKeys (snd (fst (attemptLoop apiKeys0 params attemptedKeys st)))) ->
  key c = key (selectKey (globalKeyIndex st) k0 rest) ->
  status c = markedAs e /\ errorMessage c = Some (messageKept e).
Proof.
  intros Hactive Hkey Hout Hfail Hc Hkc.
  pose proof (@generateSpeech_remoteFailure params _
                (set_globalKeyIndex (globalKeyIndex st + 1) st) out w e
                Hkey Hout Hfail) as Hcall.
  assert (Hhead : exists attempts,
             snd (attemptLoop apiKeys0 params attemptedKeys st)
             = attemptOf attemptedKeys st k0 rest (Rejected (rethrow e))
                 :: attempts).
  { rewrite attemptLoop_body, Hactive. cbv zeta.
    destruct (generateSpeech params
                (key (selectKey (globalKeyIndex st) k0 rest))
                (set_globalKeyIndex (globalKeyIndex st + 1) st))
      as [r st1].
    simpl in Hcall. subst r.
    match goal with
    | |- context [attemptLoop apiKeys0 params (StrSet.add ?k ?a) ?s] =>
        destruct (attemptLoop apiKeys0 params (StrSet.add k a) s)
          as [[r st2] attempts]
    end.
    exists attempts. reflexivity. }
  destruct Hhead as [attempts Hhead].
  destruct (@attemptLoop_failed_entry apiKeys0 params attemptedKeys st
              (attemptOf attemptedKeys st k0 rest (Rejected (rethrow e)))
              (rethrow e) c) as (Hs & Hm & _).
  - rewrite Hhead. left. reflexivity.
  - reflexivity.
  - exact Hc.
  - exact Hkc.
  - rewrite Hs, Hm, failureIsQuota_rethrow, failureMessage_rethrow.
    split; reflexivity.
Qed.

(** ** The text of a request *)



Lemma append_assoc (a b c : string) : (a +++ b) +++ c = a +++ (b +++ c).
Proof.
  induction a as [|x a IH]; simpl; [reflexivity | rewrite IH; reflexivity].
Qed.







(** ** Single mode: the local preconditions *)

(** The sentence of claim C6, for a reading [contains] of "the content
    contains the banned term": when the text is empty once trimmed, or
    contains an entry of the banned list, [handleSynthesizeSingle] stops
    with the error of that case (for banned terms: the entries found, in
    the order of the list), makes no attempt, sends nothing, and leaves the
    world and the credentials as they were. *)
Definition shortCircuits (contains : string -> string -> bool) : Prop :=
  forall r st : AppState,
  let matched := filter (fun w => contains w (text r)) BANNED_WORDS in
  let '(st', attempts) := handleSynthesizeSingle r st in
  (Js.trim (text r) = EmptyString ->
   singleError st' = Some "Please enter some text to synthesize." /\
   attempts = [] /\ sent st' = sent st /\ world st' = world st /\
   apiKeys st' = apiKeys st) /\
  (Js.trim (text r) <> EmptyString -> matched <> [] ->
   singleError st' =
     Some ("Content contains banned words: " +++ Js.join ", " matched) /\
   attempts = [] /\ sent st' = sent st /\ world st' = world st /\
   apiKeys st' = apiKeys st).

(** A substring match that ignores the case of both sides, as the claim has
    it; and that match kept to the entries that are written in lower
    case. *)
Definition caseInsensitive (w t : string) : bool :=
  Js.includes (Js.toLowerCase w) (Js.toLowerCase t).

Definition lowerCaseEntryIn (w t : string) : bool :=
  (Js.toLowerCase w =? w)%string && caseInsensitive w t.

Lemma lowerChar_twice (c : ascii) :
  Js.lowerChar (Js.lowerChar c) = Js.lowerChar c.
Proof.
  destruct c as [[] [] [] [] [] [] [] []]; reflexivity.
Qed.

Lemma toLowerCase_twice (s : string) :
  Js.toLowerCase (Js.toLowerCase s) = Js.toLowerCase s.
Proof.
  induction s as [|c s IH]; simpl; [reflexivity|].
  rewrite lowerChar_twice, IH. reflexivity.
Qed.

(** A text found at the head of a lower-cased text is in lower case. *)
Lemma prefix_of_lower (w : string) :
  forall t, prefix w (Js.toLowerCase t) = true -> Js.toLowerCase w = w.
Proof.
  induction w as [|a w IH]; intros t H; [reflexivity|].
  destruct t as [|b t]; simpl in H; [discriminate|].
  destruct (ascii_dec a (Js.lowerChar b)) as [->|_]; [|discriminate].
  simpl. rewrite lowerChar_twice, (IH t H). reflexivity.
Qed.

Lemma includes_of_lower (w t : string) :
  Js.includes w (Js.toLowerCase t) = true -> Js.toLowerCase w = w.
Proof.
  induction t as [|b t IH]; simpl; intros H.
  - apply orb_prop in H as [H|H]; [|discriminate].
    apply (prefix_of_lower w EmptyString). exact H.
  - apply orb_prop in H as [H|H]; [|exact (IH H)].
    apply (prefix_of_lower w (String b t)). exact H.
Qed.

(** The test of the code, an entry as written against the lower-cased
    text, is the case-insensitive match of the entries written in lower
    case: an entry that holds a capital is never found. *)
Lemma violations_match (w t : string) :
  Js.includes w (Js.toLowerCase t) = lowerCaseEntryIn w t.
Proof.
  unfold lowerCaseEntryIn, caseInsensitive.
  destruct (String.eqb_spec (Js.toLowerCase w) w) as [E|E]; simpl.
  - rewrite E. reflexivity.
  - destruct (Js.includes w (Js.toLowerCase t)) eqn:H; [|reflexivity].
    exfalso. apply E. eapply includes_of_lower. exact H.
Qed.

(** Claim C6, as amended.  The local checks stop the request, as the claim
    says, when the text is empty once trimmed or holds, whatever the case
    of its letters, an entry of the banned list that is written in lower
    case: the error names the entries found, no attempt is made, nothing is
    sent, and the world and the credentials are what they were.  The test
    the code makes is exactly that match. *)
Theorem single_mode_preconditions :
  shortCircuits lowerCaseEntryIn /\
  (forall word text0,
     Js.includes word (Js.toLowerCase text0) = lowerCaseEntryIn word text0).
Proof.
  split; [|exact violations_match].
  intros r st matched.
  assert (Hm : violations (text r) = matched).
  { unfold violations, matched. apply filter_ext. intros w.
    apply violations_match. }
  unfold handleSynthesizeSingle. rewrite Hm.
  destruct (Js.truthy (Js.trim (text r))) eqn:Htrim; simpl negb; cbv iota.
  - apply truthy_nonempty in Htrim.
    destruct matched as [|w ws] eqn:Hmatched.
    + cbn [length Nat.ltb Nat.leb].
      match goal with
      | |- context [attemptGenerate ?a ?p ?s] =>
          destruct (attemptGenerate a p s) as [[res st2] attempts]
      end.
      split; [contradiction|]. intros _ H. contradiction.
    + cbn [length Nat.ltb Nat.leb].
      split; [contradiction|]. intros _ _. repeat split.
  - split; [intros _; repeat split|].
    intros Hne. exfalso. apply Hne.
    destruct (Js.trim (text r)); [reflexivity | discriminate].
Qed.

(** ** CSV ingestion *)

Fixpoint noComma (s : string) : bool :=
  match s with
  | EmptyString => true
  | String c s' => negb (Ascii.eqb c ",") && noComma s'
  end.

Lemma cutAtComma_spec (line a b : string) :
  Js.cutAtComma line = Some (a, b) <->
  line = a +++ "," +++ b /\ noComma a = true.
Proof.
  revert a. induction line as [|c line IH]; intros a; simpl.
  - split; [discriminate|]. intros [H _]. destruct a; discriminate.
  - destruct (Ascii.eqb_spec c ",") as [->|Hc].
    + split.
      * intros [= <- <-]. split; reflexivity.
      * intros [H Ha]. destruct a as [|x a]; simpl in *.
        -- injection H as <-. reflexivity.
        -- injection H as <- _. simpl in Ha. discriminate.
    + destruct (Js.cutAtComma line) as [[a' b']|] eqn:Hcut.
      * split.
        -- intros [= <- <-]. destruct (proj1 (IH a') eq_refl) as [-> Ha'].
           split; [reflexivity|]. simpl.
           destruct (Ascii.eqb_spec c ","); [contradiction | exact Ha'].
        -- intros [H Ha]. destruct a as [|x a]; simpl in *.
           ++ injection H as -> _. contradiction.
           ++ injection H as <- H. apply andb_prop in Ha as [_ Ha].
              assert (Hcut' : Some (a', b') = Some (a, b))
                by (apply IH; auto).
              injection Hcut' as -> ->. reflexivity.
      * split; [discriminate|]. intros [H Ha].
        destruct a as [|x a]; simpl in *.
        -- injection H as -> _. contradiction.
        -- injection H as <- H. apply andb_prop in Ha as [_ Ha].
           assert (Hcut' : None = Some (a, b)) by (apply IH; auto).
           discriminate.
Qed.

(** The shape of a row: non-empty text without a comma, a comma, and text
    without a line terminator. *)
Lemma matchRow_spec (line a b : string) :
  Js.matchRow line = Some (a, b) <->
  line = a +++ "," +++ b /\ a <> EmptyString /\ noComma a = true /\
  Js.noLineTerminator b = true.
Proof.
  unfold Js.matchRow.
  destruct (Js.cutAtComma line) as [[a' b']|] eqn:Hcut.
  - apply cutAtComma_spec in Hcut as [Hline Ha'].
    destruct (Js.truthy a' && Js.noLineTerminator b') eqn:Hok.
    + apply andb_prop in Hok as [Ht Hb]. apply truthy_nonempty in Ht.
      split.
      * intros [= <- <-]. auto.
      * intros (H & _ & Ha & _).
        assert (Hcut' : Js.cutAtComma line = Some (a, b))
          by (apply cutAtComma_spec; auto).
        assert (Hcut'' : Js.cutAtComma line = Some (a', b'))
          by (apply cutAtComma_spec; auto).
        congruence.
    + split; [discriminate|]. intros (H & Hne & Ha & Hb).
      assert (Hcut' : Js.cutAtComma line = Some (a, b))
        by (apply cutAtComma_spec; auto).
      assert (Hcut'' : Js.cutAtComma line = Some (a', b'))
        by (apply cutAtComma_spec; auto).
      rewrite Hcut' in Hcut''. injection Hcut'' as <- <-.
      apply truthy_nonempty in Hne. rewrite Hne, Hb in Hok. discriminate.
  - split; [discriminate|]. intros (H & _ & Ha & _).
    assert (Hcut' : Js.cutAtComma line = Some (a, b))
      by (apply cutAtComma_spec; auto).
    congruence.
Qed.

(** A line that gives a row: not blank, and of the shape above. *)
Definition isRow (line : string) : bool :=
  Js.truthy (Js.trim line) &&
  match Js.matchRow line with Some _ => true | None => false end.

(** "The file is read as follows", for a way [labelOf] to make the label of
    a row from the text before the comma and a way [contentOf] to make its
    content from the text after it: the shape shared by the sentence of the
    specification and by its amended form. *)
Definition ingests (labelOf contentOf : string -> string)
  (content : string) (st : AppState) : Prop :=
  let dataLines := tl (Js.splitLines content) in
  let st' := handleFileUpload content st in
  exists newItems,
    batchItems st' = batchItems st ++ newItems /\
    Forall2
      (fun line item =>
         exists m1 m2,
           line = m1 +++ "," +++ m2 /\ noComma m1 = true /\
           Item.stt item = labelOf m1 /\
           Item.text item = contentOf m2 /\
           Item.status item = Item.idle /\
           Item.audioUrl item = None /\ Item.errorMsg item = None)
      (filter isRow dataLines) newItems /\
    (forall i, In i newItems ->
       StrSet.has (selectedIds st') (Item.id i) = true) /\
    (forall x, StrSet.has (selectedIds st') x = true <->
       StrSet.has (selectedIds st) x = true \/
       exists i, In i newItems /\ Item.id i = x).

(** A field as the specification words it: a field wrapped in double quotes
    loses the wrapping and has its doubled quotes undone; any other field
    is taken as it stands. *)
Definition specField (raw : string) : string :=
  let field := Js.trim raw in
  if Js.startsWith Js.dquote field && Js.endsWith Js.dquote field
  then Js.unescapeQuotes (Js.slice_1_m1 field)
  else field.






(** ** The bulk run *)







(** The request [processBatchItem] builds for an item: its text, always as
    markup, with the voice and the prosody of the render. *)
Definition itemParams (r : AppState) (item : Item.t) : Params.t :=
  {| Params.text := Item.text item;
     Params.voiceId := apiId (selectedVoice r);
     Params.speed := speed r;
     Params.pitch := pitch r;
     Params.isSSML := true |}.






Lemma map_id_updateAt (index : nat) (f : Item.t -> Item.t) (l : list Item.t) :
  (forall y, Item.id (f y) = Item.id y) ->
  map Item.id (updateAt index f l) = map Item.id l.
Proof.
  intros Hf. revert index. induction l as [|x l IH]; intros [|n]; simpl;
    try reflexivity.
  - rewrite Hf. reflexivity.
  - rewrite IH. reflexivity.
Qed.

















(** * Further properties of the code *)

(** ** The rotation engine: what a call does to the counters, the statuses
    and the network *)

Lemma Forall2_map_same (A : Type) (R : A -> A -> Prop) (f : A -> A)
  (l : list A) :
  (forall c, In c l -> R c (f c)) -> Forall2 R l (map f l).
Proof.
  induction l as [|a l IH]; intros H; simpl; constructor.
  - apply H. left. reflexivity.
  - apply IH. intros c Hc. apply H. right. exact Hc.
Qed.

(** The key that served the call: the key of the last attempt, when that
    attempt succeeded. *)
Definition servedBy (attempts : list Attempt) : option string :=
  match rev attempts with
  | a :: _ =>
      match at_outcome a with
      | Resolved _ => Some (triedKey a)
      | Rejected _ => None
      end
  | [] => None
  end.

Definition servedKey (attempts : list Attempt) (k : string) : bool :=
  match servedBy attempts with
  | Some k' => (k =? k')%string
  | None => false
  end.

Lemma entryAfter_rejected (a : Attempt) (c : ApiKeyData) :
  isRejected a ->
  key (entryAfter a c) = key c /\
  usageCount (entryAfter a c) = usageCount c /\
  addedAt (entryAfter a c) = addedAt c /\
  (status (entryAfter a c) = active ->
   status c = active /\ triedKey a <> key c).
Proof.
  intros [e He]. unfold entryAfter, markKey. rewrite He.
  destruct (String.eqb_spec (key c) (triedKey a)) as [Heq|Hne]; simpl.
  - repeat split; try reflexivity; destruct (failureIsQuota e); discriminate.
  - repeat split; try assumption. congruence.
Qed.

Lemma entryAfter_resolved (a : Attempt) (c : ApiKeyData) (payload : string) :
  at_outcome a = Resolved payload ->
  key (entryAfter a c) = key c /\
  usageCount (entryAfter a c)
  = (usageCount c + (if (key c =? triedKey a)%string then 1 else 0))%N /\
  addedAt (entryAfter a c) = addedAt c /\
  status (entryAfter a c) = status c /\
  errorMessage (entryAfter a c) = errorMessage c.
Proof.
  intros Ha. unfold entryAfter, useKey. rewrite Ha.
  destruct (key c =? triedKey a)%string; simpl; repeat split; lia.
Qed.

Lemma entryAfterAll_rejected (attempts : list Attempt) :
  Forall isRejected attempts ->
  forall c,
  key (entryAfterAll attempts c) = key c /\
  usageCount (entryAfterAll attempts c) = usageCount c /\
  addedAt (entryAfterAll attempts c) = addedAt c /\
  (status (entryAfterAll attempts c) = active ->
   status c = active /\ ~ In (key c) (map triedKey attempts)).
Proof.
  induction 1 as [|a l Ha _ IH]; intros c.
  - unfold entryAfterAll. simpl. tauto.
  - unfold entryAfterAll in *. simpl.
    destruct (@entryAfter_rejected a c Ha) as (Hk & Hu & Hd & Hs).
    destruct (IH (entryAfter a c)) as (Hk' & Hu' & Hd' & Hs').
    split; [congruence|]. split; [congruence|]. split; [congruence|].
    intros Hact. destruct (Hs' Hact) as [Hmid Hnot].
    destruct (Hs Hmid) as [Hc Hne].
    split; [exact Hc|].
    intros [Heq|Hin]; [exact (Hne Heq)|].
    apply Hnot. rewrite Hk. exact Hin.
Qed.

Lemma entryAfterAll_app (l1 l2 : list Attempt) (c : ApiKeyData) :
  entryAfterAll (l1 ++ l2) c = entryAfterAll l2 (entryAfterAll l1 c).
Proof.
  unfold entryAfterAll. apply fold_left_app.
Qed.

Lemma servedBy_rejected (attempts : list Attempt) :
  Forall isRejected attempts -> servedBy attempts = None.
Proof.
  intros H. unfold servedBy. destruct (rev attempts) as [|a l] eqn:Hrev;
    [reflexivity|].
  assert (Ha : In a attempts).
  { apply in_rev. rewrite Hrev. left. reflexivity. }
  rewrite Forall_forall in H. destruct (H a Ha) as [e ->]. reflexivity.
Qed.

Lemma servedBy_last (before : list Attempt) (a : Attempt) (payload : string) :
  at_outcome a = Resolved payload ->
  servedBy (before ++ [a]) = Some (triedKey a).
Proof.
  intros H. unfold servedBy. rewrite rev_app_distr. simpl. rewrite H.
  reflexivity.
Qed.

(** The effect of a whole call on one credential. *)
Lemma attemptLoop_entry (apiKeys0 : list ApiKeyData) (params : Params.t)
  (attemptedKeys : StrSet.t) (st : AppState) (c : ApiKeyData) :
  let res := attemptLoop apiKeys0 params attemptedKeys st in
  let c' := entryAfterAll (snd res) c in
  key c' = key c /\ addedAt c' = addedAt c /\
  usageCount c'
  = (usageCount c + (if servedKey (snd res) (key c) then 1 else 0))%N /\
  (status c' = active -> status c = active) /\
  (~ In (key c) (map triedKey (snd res)) -> c' = c).
Proof.
  intros res c'. subst c' res.
  destruct (attemptLoop_outcome apiKeys0 params attemptedKeys st)
    as (_ & _ & Hshape).
  split; [apply key_entryAfterAll|].
  assert (Hother :
    ~ In (key c)
        (map triedKey (snd (attemptLoop apiKeys0 params attemptedKeys st))) ->
    entryAfterAll (snd (attemptLoop apiKeys0 params attemptedKeys st)) c = c)
    by apply entryAfterAll_other.
  revert Hother.
  destruct (fst (fst (attemptLoop apiKeys0 params attemptedKeys st)))
    as [payload|e].
  - destruct Hshape as (before & a & Heq & Ha & Hbefore).
    rewrite Heq. intros Hother. unfold servedKey.
    rewrite (servedBy_last _ _ Ha).
    split; [|split; [|split; [|exact Hother]]];
      rewrite entryAfterAll_app; unfold entryAfterAll at 1; simpl;
      destruct (entryAfterAll_rejected Hbefore c) as (Hk & Hu & Hd & Hs);
      destruct (@entryAfter_resolved a (entryAfterAll before c) payload Ha)
        as (_ & Hu' & Hd' & Hs' & _).
    + congruence.
    + rewrite Hu', Hu, Hk. reflexivity.
    + intros H. apply Hs. congruence.
  - destruct Hshape as (_ & Hall & _). intros Hother.
    unfold servedKey. rewrite (servedBy_rejected Hall).
    destruct (entryAfterAll_rejected Hall c) as (Hk & Hu & Hd & Hs).
    split; [exact Hd|]. split; [rewrite Hu; lia|].
    split; [|exact Hother]. intros H. apply Hs. exact H.
Qed.

(** X1.  A call keeps the list of credentials in place: same length, same
    order, same secrets and dates.  The usage counter of a credential grows
    by one when its key served the call and is unchanged otherwise; no
    credential becomes active; a credential whose key was not tried is
    untouched. *)
Theorem attemptGenerate_accounting (apiKeys0 : list ApiKeyData)
  (params : Params.t) (st : AppState) :
  let '(_, st', attempts) := attemptGenerate apiKeys0 params st in
  Forall2
    (fun c c' =>
       key c' = key c /\ addedAt c' = addedAt c /\
       usageCount c'
       = (usageCount c + (if servedKey attempts (key c) then 1 else 0))%N /\
       (status c' = active -> status c = active) /\
       (~ In (key c) (map triedKey attempts) -> c' = c))
    (apiKeys st) (apiKeys st').
Proof.
  unfold attemptGenerate.
  pose proof (attemptLoop_store apiKeys0 params [] st) as Hstore.
  pose proof (fun c => attemptLoop_entry apiKeys0 params [] st c) as Hentry.
  destruct (attemptLoop apiKeys0 params [] st) as [[r st'] attempts].
  simpl in *. rewrite Hstore. apply Forall2_map_same.
  intros c _. apply Hentry.
Qed.

(** The request an attempt puts on the wire: none for a credential whose
    secret is the empty string, which [generateSpeech] refuses at once. *)
Definition requestsOf (params : Params.t) (attempts : list Attempt)
  : list NetRequest :=
  flat_map
    (fun a =>
       if Js.truthy (triedKey a) then
         [{| req_apiKey := triedKey a; req_text := promptText params;
             req_voiceName := Params.voiceId params |}]
       else [])
    attempts.

Lemma generateSpeech_sent (p : Params.t) (apiKey : string) (st : AppState) :
  sent (snd (generateSpeech p apiKey st))
  = sent st ++
    (if Js.truthy apiKey then
       [{| req_apiKey := apiKey; req_text := promptText p;
           req_voiceName := Params.voiceId p |}]
     else []).
Proof.
  unfold generateSpeech. destruct (Js.truthy apiKey); simpl.
  - destruct (generateContent (world st) apiKey (promptText p)
                (Params.voiceId p)) as [out w].
    destruct out as [[a|]|e]; [destruct (Js.truthy a)| |]; reflexivity.
  - symmetry. apply app_nil_r.
Qed.

Lemma attemptLoop_sent (apiKeys0 : list ApiKeyData) (params : Params.t) :
  forall attemptedKeys st,
  let res := attemptLoop apiKeys0 params attemptedKeys st in
  sent (snd (fst res)) = sent st ++ requestsOf params (snd res).
Proof.
  apply attemptLoop_rule
    with (P := fun _ st res =>
                 sent (snd (fst res)) = sent st ++ requestsOf params (snd res)).
  - intros _ st _. simpl. symmetry. apply app_nil_r.
  - intros att st k0 rest result st' _ Hcall.
    pose proof (generateSpeech_sent params
                  (key (selectKey (globalKeyIndex st) k0 rest))
                  (set_globalKeyIndex (globalKeyIndex st + 1) st)) as Hs.
    rewrite Hcall in Hs. simpl in *. rewrite Hs, app_nil_r. reflexivity.
  - intros att st k0 rest e st' r st'' attempts _ Hcall _ IH.
    pose proof (generateSpeech_sent params
                  (key (selectKey (globalKeyIndex st) k0 rest))
                  (set_globalKeyIndex (globalKeyIndex st + 1) st)) as Hs.
    rewrite Hcall in Hs. simpl in *. rewrite IH, Hs, <- app_assoc.
    reflexivity.
Qed.

(** X2.  The requests a call sends are, in order, one per attempt made with
    a non-empty secret, each carrying the prompt and the voice of the call;
    every one of them carries the secret of a credential that is active in
    the captured list, and no secret is sent twice. *)
Theorem attemptGenerate_requests (apiKeys0 : list ApiKeyData)
  (params : Params.t) (st : AppState) :
  let '(_, st', attempts) := attemptGenerate apiKeys0 params st in
  sent st' = sent st ++ requestsOf params attempts /\
  NoDup (map req_apiKey (requestsOf params attempts)) /\
  forall q, In q (requestsOf params attempts) ->
    req_text q = promptText params /\
    req_voiceName q = Params.voiceId params /\
    req_apiKey q <> EmptyString /\
    exists c, In c apiKeys0 /\ status c = active /\ key c = req_apiKey q.
Proof.
  unfold attemptGenerate.
  pose proof (attemptLoop_sent apiKeys0 params [] st) as Hsent.
  pose proof (attemptLoop_outcome apiKeys0 params [] st) as (Hnd & Hin & _).
  destruct (attemptLoop apiKeys0 params [] st) as [[r st'] attempts].
  simpl in *. split; [exact Hsent|]. split.
  - clear Hsent Hin. induction attempts as [|a l IH]; simpl; [constructor|].
    apply NoDup_cons_iff in Hnd as [Hfresh Hnd].
    destruct (Js.truthy (triedKey a)); simpl; [|apply IH; exact Hnd].
    constructor; [|apply IH; exact Hnd].
    intros Hq. apply Hfresh. clear IH Hfresh Hnd.
    induction l as [|b l IHl]; simpl in *; [contradiction|].
    destruct (Js.truthy (triedKey b)); simpl in Hq.
    + destruct Hq as [Hq|Hq]; [left; exact Hq | right; apply IHl; exact Hq].
    + right. apply IHl. exact Hq.
  - intros q Hq. unfold requestsOf in Hq. apply in_flat_map in Hq.
    destruct Hq as (a & Ha & Hq).
    destruct (Js.truthy (triedKey a)) eqn:Ht; [|contradiction].
    destruct Hq as [<-|[]]. simpl.
    split; [reflexivity|]. split; [reflexivity|].
    split; [apply truthy_nonempty; exact Ht|].
    destruct (Hin (triedKey a) (in_map triedKey _ _ Ha))
      as (_ & c & Hc & Hact & Hkey).
    exists c. rewrite <- isActive_true. auto.
Qed.

(** The list a call captured still knows the store: every credential that
    is active in the store is, by its secret, active in the captured list.
    It is so for a call made from the render of the current state; a call
    of the engine keeps it so, since it only marks and counts. *)
Definition stillKnown (apiKeys0 : list ApiKeyData) (st : AppState) : Prop :=
  forall c, In c (apiKeys st) -> status c = active ->
    exists c0, In c0 apiKeys0 /\ key c0 = key c /\ status c0 = active.

(** X18.  A call made from an earlier render whose list still knows the
    store (as in a bulk run, whose calls all use the list of the render the
    run was started from).  No secret is tried twice, and the secrets tried
    are those of credentials that are active in the captured list: some may
    be out of rotation in the store by now.  A call that fails has tried
    the secret of every credential that is active in the store exactly
    once.  After the call the captured list still knows the store. *)
Theorem stale_call_covers_the_store (apiKeys0 : list ApiKeyData)
  (params : Params.t) (st : AppState) :
  stillKnown apiKeys0 st ->
  let '(r, st', attempts) := attemptGenerate apiKeys0 params st in
  let tried := map triedKey attempts in
  NoDup tried /\
  (forall k, In k tried ->
     exists c0, In c0 apiKeys0 /\ status c0 = active /\ key c0 = k) /\
  match r with
  | Resolved payload =>
      exists before last,
        attempts = before ++ [last] /\
        at_outcome last = Resolved payload /\
        Forall isRejected before
  | Rejected e =>
      e = noActiveKeys /\
      forall c, In c (apiKeys st) -> status c = active ->
        count_occ string_dec tried (key c) = 1
  end /\
  stillKnown apiKeys0 st'.
Proof.
  tidy. intros Hknown. unfold attemptGenerate.
  pose proof (attemptLoop_outcome apiKeys0 params [] st) as (Hnd & Hin & Hres).
  pose proof (attemptLoop_store apiKeys0 params [] st) as Hstore.
  pose proof (fun c => attemptLoop_entry apiKeys0 params [] st c) as Hentry.
  destruct (attemptLoop apiKeys0 params [] st) as [[r st'] attempts].
  cbn [fst snd] in *.
  split; [exact Hnd|]. split; [|split].
  - intros k Hk. destruct (Hin k Hk) as (_ & c & Hc & Hact & Hkey).
    exists c. rewrite <- isActive_true. auto.
  - destruct r as [payload|e]; [exact Hres|].
    destruct Hres as (He & _ & Hcover). split; [exact He|].
    intros c Hc Hact. apply NoDup_count_occ'; [exact Hnd|].
    destruct (Hknown c Hc Hact) as (c0 & Hc0 & Hkey & Hact0).
    apply isActive_true in Hact0.
    destruct (Hcover c0 Hc0 Hact0) as [H|H]; [discriminate|].
    rewrite <- Hkey. exact H.
  - intros c' Hc' Hact'. rewrite Hstore in Hc'. apply in_map_iff in Hc'.
    destruct Hc' as (c & <- & Hc).
    destruct (Hentry c) as (Hkey & _ & _ & Hstatus & _).
    destruct (Hknown c Hc (Hstatus Hact')) as (c0 & Hc0 & Hkey0 & Hact0).
    exists c0. split; [exact Hc0|]. split; [congruence | exact Hact0].
Qed.

(** X3.  When a call made from the current render fails, no credential is
    active any more, and from then on a call made from the new render fails
    at once: no attempt, no request, nothing changed. *)
Theorem exhausted_credentials_stay_out (params : Params.t) (st : AppState) :
  let '(r, st', _) := attemptGenerate (apiKeys st) params st in
  match r with
  | Resolved _ => True
  | Rejected _ =>
      Forall (fun c => status c <> active) (apiKeys st') /\
      forall params', attemptGenerate (apiKeys st') params' st'
                      = (Rejected noActiveKeys, st', [])
  end.
Proof.
  unfold attemptGenerate.
  pose proof (attemptLoop_store (apiKeys st) params [] st) as Hstore.
  pose proof (attemptLoop_outcome (apiKeys st) params [] st)
    as (_ & _ & Hshape).
  destruct (attemptLoop (apiKeys st) params [] st) as [[r st'] attempts].
  simpl in *. destruct r as [payload|e]; [exact I|].
  destruct Hshape as (_ & Hall & Hcover).
  assert (Hnone : Forall (fun c => status c <> active) (apiKeys st')).
  { rewrite Hstore. apply Forall_map. apply Forall_forall. intros c Hc Hact.
    destruct (entryAfterAll_rejected Hall c) as (_ & _ & _ & Hs).
    destruct (Hs Hact) as [Hc_act Hnot].
    apply isActive_true in Hc_act.
    destruct (Hcover c Hc Hc_act) as [H|H]; [discriminate | exact (Hnot H)]. }
  split; [exact Hnone|].
  intros params'. rewrite attemptLoop_body.
  replace (activeKeysOf (apiKeys st') []) with (@nil ApiKeyData);
    [reflexivity|].
  rewrite activeKeysOf_nil. symmetry.
  clear Hstore. induction Hnone as [|c l Hc _ IH]; simpl; [reflexivity|].
  destruct (isActive c) eqn:Hact; [|exact IH].
  apply isActive_true in Hact. contradiction.
Qed.

(** X4.  [generateSpeech] with an empty secret rejects without touching the
    network; it resolves only with the non-empty audio data the service
    returned for a non-empty secret; and every error it throws has a
    non-empty message. *)
Theorem generateSpeech_outcomes (p : Params.t) (apiKey : string)
  (st : AppState) :
  (apiKey = EmptyString ->
   generateSpeech p apiKey st
   = (Rejected (newError "No API Key provided for this request."), st)) /\
  (forall base64Audio st',
     generateSpeech p apiKey st = (Resolved base64Audio, st') ->
     base64Audio <> EmptyString /\ apiKey <> EmptyString /\
     fst (generateContent (world st) apiKey (promptText p) (Params.voiceId p))
     = Responded (Some base64Audio)) /\
  (forall e st',
     generateSpeech p apiKey st = (Rejected e, st') ->
     message e <> EmptyString).
Proof.
  split; [|split].
  - intros ->. reflexivity.
  - intros a st'. unfold generateSpeech.
    destruct (Js.truthy apiKey) eqn:Hkey; simpl; [|discriminate].
    destruct (generateContent (world st) apiKey (promptText p)
                (Params.voiceId p)) as [out w].
    destruct out as [[b|]|e]; [destruct (Js.truthy b) eqn:Hb| |];
      try discriminate.
    intros [= <- _]. simpl. repeat split; apply truthy_nonempty; assumption.
  - intros e st' H. apply truthy_nonempty.
    eapply generateSpeech_rejected. exact H.
Qed.

(** ** Single mode, once the local checks have passed *)



(** ** Retrying one item ([handleRetryItem]) *)





(** ** Selection ([handleToggleSelect], [handleToggleSelectAll]) *)

(** [next.delete(x)] and [new Set(xs)] *)
Definition StrSet_delete (x : string) (s : StrSet.t) : StrSet.t :=
  filter (fun y => negb (y =? x)%string) s.

Definition StrSet_ofList (xs : list string) : StrSet.t :=
  fold_left (fun s x => StrSet.add x s) xs [].

Definition handleToggleSelect (id0 : string) (st : AppState) : AppState :=
  setSelectedIds
    (fun prev => if StrSet.has prev id0 then StrSet_delete id0 prev
                 else StrSet.add id0 prev) st.

Definition isAllSelected (r : AppState) : bool :=
  (0 <? length (batchItems r))
  && (StrSet.size (selectedIds r) =? length (batchItems r)).

Definition isIndeterminate (r : AppState) : bool :=
  (0 <? StrSet.size (selectedIds r))
  && (StrSet.size (selectedIds r) <? length (batchItems r)).

Definition handleToggleSelectAll (r st : AppState) : AppState :=
  if isAllSelected r then set_selectedIds [] st
  else set_selectedIds (StrSet_ofList (map Item.id (batchItems r))) st.

Lemma StrSet_has_delete (s : StrSet.t) (x y : string) :
  StrSet.has (StrSet_delete x s) y
  = StrSet.has s y && negb (y =? x)%string.
Proof.
  unfold StrSet.has, StrSet_delete. induction s as [|z s IH]; simpl;
    [reflexivity|].
  destruct (String.eqb_spec z x) as [Hzx|Hzx]; simpl; rewrite IH;
    destruct (String.eqb_spec y x) as [Hyx|Hyx];
    destruct (String.eqb_spec y z) as [Hyz|Hyz]; simpl;
    try congruence;
    destruct (existsb (String.eqb y) s); reflexivity.
Qed.

Lemma toggled_membership (s : StrSet.t) (id0 x : string) :
  StrSet.has (if StrSet.has s id0 then StrSet_delete id0 s
              else StrSet.add id0 s) x
  = if (x =? id0)%string then negb (StrSet.has s id0) else StrSet.has s x.
Proof.
  destruct (StrSet.has s id0) eqn:Hhas.
  - rewrite StrSet_has_delete.
    destruct (String.eqb_spec x id0) as [->|_]; simpl.
    + apply andb_false_r.
    + apply andb_true_r.
  - rewrite StrSet_has_add, (String.eqb_sym id0 x).
    destruct (String.eqb_spec x id0) as [->|_]; simpl; [reflexivity|].
    reflexivity.
Qed.

(** X7.  Toggling an identity flips its membership in the selection and
    no other; toggling it twice gives back the selection, as a set; the
    items are not touched. *)
Theorem toggle_select_flips (id0 x : string) (st : AppState) :
  StrSet.has (selectedIds (handleToggleSelect id0 st)) x
  = (if (x =? id0)%string then negb (StrSet.has (selectedIds st) id0)
     else StrSet.has (selectedIds st) x) /\
  StrSet.has
    (selectedIds (handleToggleSelect id0 (handleToggleSelect id0 st))) x
  = StrSet.has (selectedIds st) x /\
  batchItems (handleToggleSelect id0 st) = batchItems st.
Proof.
  split; [|split; [|reflexivity]].
  - apply toggled_membership.
  - unfold handleToggleSelect, setSelectedIds. cbn [selectedIds set_selectedIds].
    rewrite toggled_membership.
    destruct (String.eqb_spec x id0) as [->|Hne].
    + rewrite toggled_membership, String.eqb_refl. apply negb_involutive.
    + rewrite toggled_membership.
      destruct (String.eqb_spec x id0); [contradiction | reflexivity].
Qed.

Lemma fold_add_fresh (xs : list string) :
  forall acc, NoDup (acc ++ xs) ->
  fold_left (fun s x => StrSet.add x s) xs acc = acc ++ xs.
Proof.
  induction xs as [|x xs IH]; intros acc Hnd; simpl.
  - symmetry. apply app_nil_r.
  - assert (Hfresh : StrSet.has acc x = false).
    { destruct (StrSet.has acc x) eqn:H; [|reflexivity].
      unfold StrSet.has in H. apply existsb_exists in H.
      destruct H as (y & Hy & Heq). apply String.eqb_eq in Heq. subst y.
      apply NoDup_remove_2 in Hnd. exfalso. apply Hnd.
      apply in_or_app. left. exact Hy. }
    unfold StrSet.add at 2. rewrite Hfresh.
    rewrite IH; rewrite <- app_assoc; [reflexivity | exact Hnd].
Qed.

(** X8.  Identities being distinct and the list not empty: from a state
    where not everything is selected, the header box selects every item,
    after which everything counts as selected and nothing as partly
    selected; pressed again, it empties the selection. *)
Theorem toggle_select_all (st : AppState) :
  NoDup (map Item.id (batchItems st)) ->
  batchItems st <> [] ->
  isAllSelected st = false ->
  let st1 := handleToggleSelectAll st st in
  selectedIds st1 = map Item.id (batchItems st) /\
  (forall i, In i (batchItems st) ->
     StrSet.has (selectedIds st1) (Item.id i) = true) /\
  isAllSelected st1 = true /\ isIndeterminate st1 = false /\
  selectedIds (handleToggleSelectAll st1 st1) = [].
Proof.
  intros Hnd Hne Hnot st1. subst st1. unfold handleToggleSelectAll.
  rewrite Hnot.
  assert (Hsel : StrSet_ofList (map Item.id (batchItems st))
                 = map Item.id (batchItems st)).
  { unfold StrSet_ofList. rewrite fold_add_fresh; [reflexivity | exact Hnd]. }
  rewrite Hsel.
  assert (Hall : isAllSelected
                   (set_selectedIds (map Item.id (batchItems st)) st) = true).
  { unfold isAllSelected, StrSet.size. cbn [batchItems selectedIds
      set_selectedIds]. rewrite length_map, Nat.eqb_refl, andb_true_r.
    destruct (batchItems st); [contradiction | reflexivity]. }
  rewrite Hall. cbn [selectedIds set_selectedIds batchItems].
  split; [reflexivity|]. split; [|split; [reflexivity|split; [|reflexivity]]].
  - intros i Hi. unfold StrSet.has. apply existsb_exists.
    exists (Item.id i). split; [apply in_map; exact Hi | apply String.eqb_refl].
  - unfold isIndeterminate, StrSet.size. cbn [batchItems selectedIds
      set_selectedIds]. rewrite length_map, Nat.ltb_irrefl. apply andb_false_r.
Qed.

(** ** Clearing the batch ([handleClearBatch]) *)

(** [URL.revokeObjectURL] *)
Variable revokeObjectURL : World -> string -> World.

Ltac tidy2 := try clear revokeObjectURL; tidy.

(** The batch panel: the state of the page with the flag that arms the
    clearing. *)
Record BatchPanel : Type := {
  pageOf : AppState;
  clearConfirmation : bool
}.

(** The handles [handleClearBatch] releases: those of the items that have
    one, in the order of the items. *)
Definition handlesOf (items : list Item.t) : list string :=
  flat_map
    (fun i => match Item.audioUrl i with
              | Some url => if Js.truthy url then [url] else []
              | None => []
              end)
    items.

(** [handleClearBatch], created in the render [r]. *)
Definition handleClearBatch (r st : BatchPanel) : BatchPanel :=
  if clearConfirmation r then
    let w :=
      fold_left revokeObjectURL (handlesOf (batchItems (pageOf r)))
        (world (pageOf st)) in
    {| pageOf := set_selectedIds [] (set_batchItems [] (set_world w (pageOf st)));
       clearConfirmation := false |}
  else {| pageOf := pageOf st; clearConfirmation := true |}.

(** The callback the first click leaves with [setTimeout]. *)
Definition clearConfirmationExpires (st : BatchPanel) : BatchPanel :=
  {| pageOf := pageOf st; clearConfirmation := false |}.

(** X9.  Clearing takes two clicks.  The first click changes nothing but
    the flag.  A second click made while the flag is up empties the items
    and the selection and releases, in order, the audio handles the items
    had, and lowers the flag, so that one more click only arms again.  If
    the flag expired in between, the second click arms again and clears
    nothing. *)
Theorem clear_needs_confirmation (st : BatchPanel) :
  clearConfirmation st = false ->
  let armed := handleClearBatch st st in
  let cleared := handleClearBatch armed armed in
  pageOf armed = pageOf st /\ clearConfirmation armed = true /\
  batchItems (pageOf cleared) = [] /\ selectedIds (pageOf cleared) = [] /\
  apiKeys (pageOf cleared) = apiKeys (pageOf st) /\
  world (pageOf cleared)
  = fold_left revokeObjectURL (handlesOf (batchItems (pageOf st)))
      (world (pageOf st)) /\
  clearConfirmation cleared = false /\
  handleClearBatch cleared cleared
  = {| pageOf := pageOf cleared; clearConfirmation := true |} /\
  handleClearBatch (clearConfirmationExpires armed)
    (clearConfirmationExpires armed) = armed.
Proof using Type.
  intros H armed cleared. subst cleared armed. unfold handleClearBatch.
  rewrite H. cbn. repeat split.
Qed.

(** ** File names of the archive ([handleDownloadAll]) *)

Definition isAlnum (c : ascii) : bool :=
  let n := nat_of_ascii c in
  ((48 <=? n) && (n <=? 57)) || ((65 <=? n) && (n <=? 90))
  || ((97 <=? n) && (n <=? 122)).

(** The replacement of every character that is not a letter or a digit,
    whatever the case, by an underscore. *)
Fixpoint safeName (s : string) : string :=
  match s with
  | EmptyString => EmptyString
  | String c s' => String (if isAlnum c then c else "_"%char) (safeName s')
  end.

Fixpoint allChars (p : ascii -> bool) (s : string) : bool :=
  match s with
  | EmptyString => true
  | String c s' => p c && allChars p s'
  end.

(** X10.  The name of an entry of the archive has the length of the label
    and holds letters, digits and underscores only; a label made of letters
    and digits is kept as it is, whatever the case of its letters; and the
    replacement applied again changes nothing. *)
Theorem safeName_spec (s : string) :
  String.length (safeName s) = String.length s /\
  allChars (fun c => isAlnum c || Ascii.eqb c "_") (safeName s) = true /\
  (allChars isAlnum s = true -> safeName s = s) /\
  safeName (safeName s) = safeName s.
Proof.
  induction s as [|c s (IH1 & IH2 & IH3 & IH4)]; [repeat split|].
  simpl. destruct (isAlnum c) eqn:Hc.
  - simpl. rewrite Hc, IH1, IH2, IH4. simpl. repeat split.
    intros H. rewrite IH3 by exact H. reflexivity.
  - simpl. rewrite IH1, IH2, IH4. repeat split. discriminate.
Qed.

(** ** Reading back a quoted field *)

(** A field as a CSV writer quotes it: every double quote doubled, the
    whole wrapped in double quotes. *)
Fixpoint doubleQuotes (s : string) : string :=
  match s with
  | EmptyString => EmptyString
  | String c s' =>
      if Ascii.eqb c Js.dquote
      then String Js.dquote (String Js.dquote (doubleQuotes s'))
      else String c (doubleQuotes s')
  end.

Definition csvQuoted (s : string) : string :=
  String Js.dquote (doubleQuotes s +++ quote).

Lemma unescapeQuotes_other (c : ascii) (t : string) :
  Ascii.eqb c Js.dquote = false ->
  Js.unescapeQuotes (String c t) = String c (Js.unescapeQuotes t).
Proof.
  intros Hc. destruct t as [|d t]; [reflexivity|].
  cbn [Js.unescapeQuotes]. rewrite Hc. reflexivity.
Qed.

Lemma unescapeQuotes_doubleQuotes (s : string) :
  Js.unescapeQuotes (doubleQuotes s) = s.
Proof.
  induction s as [|c s IH]; [reflexivity|].
  cbn [doubleQuotes]. destruct (Ascii.eqb_spec c Js.dquote) as [->|Hc].
  - cbn [Js.unescapeQuotes]. rewrite Ascii.eqb_refl. simpl andb. cbv iota.
    rewrite IH. reflexivity.
  - rewrite unescapeQuotes_other, IH; [reflexivity|].
    apply Ascii.eqb_neq. exact Hc.
Qed.

Lemma isEmpty_app_last (s : string) (c : ascii) :
  Js.isEmpty (s +++ String c EmptyString) = false.
Proof.
  destruct s; reflexivity.
Qed.

Lemma trimEnd_app_last (s : string) (c : ascii) :
  Js.isWhiteSpace c = false ->
  Js.trimEnd (s +++ String c EmptyString) = s +++ String c EmptyString.
Proof.
  intros Hc. induction s as [|x s IH]; cbn [String.append Js.trimEnd].
  - rewrite Hc. reflexivity.
  - rewrite IH, isEmpty_app_last, andb_false_r. reflexivity.
Qed.

Lemma trimStart_keeps_last (s : string) (c : ascii) :
  Js.isWhiteSpace c = false ->
  exists s', Js.trimStart (s +++ String c EmptyString)
             = s' +++ String c EmptyString.
Proof.
  intros Hc. induction s as [|x s IH]; cbn [String.append Js.trimStart].
  - rewrite Hc. exists EmptyString. reflexivity.
  - destruct (Js.isWhiteSpace x); [exact IH|].
    exists (String x s). reflexivity.
Qed.

Lemma endsWith_app_last (s : string) (c : ascii) :
  Js.endsWith c (s +++ String c EmptyString) = true.
Proof.
  induction s as [|x s IH]; cbn [String.append Js.endsWith].
  - apply Ascii.eqb_refl.
  - destruct (s +++ String c EmptyString) eqn:E; [|exact IH].
    destruct s; discriminate.
Qed.

Lemma dropLast_app_last (s : string) (c : ascii) :
  Js.dropLast (s +++ String c EmptyString) = s.
Proof.
  induction s as [|x s IH]; cbn [String.append Js.dropLast]; [reflexivity|].
  destruct (s +++ String c EmptyString) eqn:E.
  - destruct s; discriminate.
  - rewrite IH. reflexivity.
Qed.

Lemma noLineTerminator_app (a b : string) :
  Js.noLineTerminator (a +++ b)
  = Js.noLineTerminator a && Js.noLineTerminator b.
Proof.
  induction a as [|x a IH]; simpl; [reflexivity|].
  rewrite IH. apply andb_assoc.
Qed.

Lemma noLineTerminator_doubleQuotes (s : string) :
  Js.noLineTerminator (doubleQuotes s) = Js.noLineTerminator s.
Proof.
  induction s as [|c s IH]; [reflexivity|].
  cbn [doubleQuotes]. destruct (Ascii.eqb_spec c Js.dquote) as [->|Hc].
  - cbn [Js.noLineTerminator]. rewrite IH. reflexivity.
  - cbn [Js.noLineTerminator]. rewrite IH. reflexivity.
Qed.

Lemma append_last (a b : string) (c : ascii) :
  a +++ (b +++ String c EmptyString) = (a +++ b) +++ String c EmptyString.
Proof.
  symmetry. apply append_assoc.
Qed.

(** X11.  A row whose content was quoted the CSV way is read back as it
    was: for a label that is not empty, holds no comma, has no white space
    at its ends and does not start with a double quote, and for any content
    without a line terminator (commas, double quotes and white space
    included), the line "label, comma, quoted content" gives that label and
    that content. *)
Theorem quoted_content_round_trip (label content : string) :
  label <> EmptyString -> noComma label = true ->
  Js.trim label = label -> Js.startsWith Js.dquote label = false ->
  Js.noLineTerminator content = true ->
  parseRow (label +++ "," +++ csvQuoted content) = Some (label, content).
Proof.
  intros Hne Hcomma Htrim Hstart Hlt.
  assert (Hnows : Js.isWhiteSpace Js.dquote = false) by reflexivity.
  assert (Hq : csvQuoted content
               = String Js.dquote (doubleQuotes content)
                 +++ String Js.dquote EmptyString) by reflexivity.
  assert (Hrow : Js.matchRow (label +++ "," +++ csvQuoted content)
                 = Some (label, csvQuoted content)).
  { apply matchRow_spec. repeat split; try assumption.
    unfold csvQuoted, quote. cbn [Js.noLineTerminator].
    rewrite noLineTerminator_app, noLineTerminator_doubleQuotes, Hlt.
    reflexivity. }
  assert (Hblank : Js.truthy (Js.trim (label +++ "," +++ csvQuoted content))
                   = true).
  { rewrite Hq, !append_last. unfold Js.trim.
    destruct (@trimStart_keeps_last
                (label +++ "," +++ String Js.dquote (doubleQuotes content))
                Js.dquote Hnows)
      as [s' ->].
    rewrite trimEnd_app_last by exact Hnows.
    unfold Js.truthy. rewrite isEmpty_app_last. reflexivity. }
  unfold parseRow. rewrite Hblank, Hrow. simpl negb. cbv iota.
  assert (Htxt : Js.trim (csvQuoted content) = csvQuoted content).
  { unfold Js.trim. unfold csvQuoted at 1. cbn [Js.trimStart].
    rewrite Hnows. fold (csvQuoted content). rewrite Hq.
    apply trimEnd_app_last. exact Hnows. }
  rewrite Htxt, Htrim. f_equal. f_equal.
  - unfold unquote. rewrite Hstart. reflexivity.
  - unfold unquote. rewrite Hq. rewrite endsWith_app_last.
    cbn [String.append Js.startsWith Js.slice_1_m1].
    rewrite Ascii.eqb_refl. simpl andb. cbv iota.
    rewrite dropLast_app_last. apply unescapeQuotes_doubleQuotes.
Qed.

(** ** The list of secrets *)

Lemma map_key_map (f : ApiKeyData -> ApiKeyData) (l : list ApiKeyData) :
  (forall c, key (f c) = key c) -> map key (map f l) = map key l.
Proof.
  intros Hf. rewrite map_map. apply map_ext. exact Hf.
Qed.

Lemma key_resetKey (k : string) (c : ApiKeyData) : key (resetKey k c) = key c.
Proof.
  unfold resetKey. destruct (key c =? k)%string; reflexivity.
Qed.

Lemma key_markKey (k reason : string) (isQuota : bool) (c : ApiKeyData) :
  key (markKey k reason isQuota c) = key c.
Proof.
  unfold markKey. destruct (key c =? k)%string; reflexivity.
Qed.

Lemma key_useKey (k : string) (c : ApiKeyData) : key (useKey k c) = key c.
Proof.
  unfold useKey. destruct (key c =? k)%string; reflexivity.
Qed.

(** What one run of the engine leaves of the state around it. *)
Lemma attemptGenerate_bookkeeping (apiKeys0 : list ApiKeyData)
  (params : Params.t) (st : AppState) :
  let res := attemptGenerate apiKeys0 params st in
  map key (apiKeys (snd (fst res))) = map key (apiKeys st) /\
  selectedIds (snd (fst res)) = selectedIds st /\
  globalKeyIndex (snd (fst res))
  = (globalKeyIndex st + N.of_nat (length (snd res)))%N /\
  length (snd res) <= length (filter isActive apiKeys0).
Proof.
  unfold attemptGenerate. cbv zeta.
  split; [|split; [|split]].
  - rewrite attemptLoop_store. apply map_key_map. intros c.
    apply key_entryAfterAll.
  - rewrite attemptLoop_frame. reflexivity.
  - apply attemptLoop_rotates.
  - rewrite <- activeKeysOf_nil. apply attemptLoop_bounded.
Qed.

Lemma processBatchItem_bookkeeping (r : AppState) (item : Item.t)
  (st : AppState) :
  let res := processBatchItem r item st in
  map key (apiKeys (snd (fst res))) = map key (apiKeys st) /\
  selectedIds (snd (fst res)) = selectedIds st /\
  globalKeyIndex (snd (fst res))
  = (globalKeyIndex st + N.of_nat (length (snd res)))%N /\
  length (snd res) <= length (filter isActive (apiKeys r)).
Proof.
  unfold processBatchItem.
  match goal with
  | |- context [attemptGenerate ?a ?p ?s] =>
      pose proof (attemptGenerate_bookkeeping a p s) as H;
      destruct (attemptGenerate a p s) as [[res st1] attempts]
  end.
  simpl in H.
  destruct res as [base64Audio|e]; [|exact H].
  destruct (createWavBlob base64Audio) as [e|wavBlob]; [exact H|].
  destruct (createObjectURL (world st1) wavBlob) as [url w]. exact H.
Qed.

Definition attemptsOf (log : list (string * list Attempt)) : nat :=
  length (concat (map snd log)).

Lemma runItems_bookkeeping (r : AppState) (todo : list (Item.t * nat)) :
  forall st,
  let res := runItems r todo st in
  map key (apiKeys (fst res)) = map key (apiKeys st) /\
  selectedIds (fst res) = selectedIds st /\
  globalKeyIndex (fst res)
  = (globalKeyIndex st + N.of_nat (attemptsOf (snd res)))%N /\
  Forall (fun entry => length (snd entry)
                       <= length (filter isActive (apiKeys r))) (snd res).
Proof.
  induction todo as [|[currentItem index] todo IH]; intros st.
  - simpl. repeat split; [unfold attemptsOf; simpl; lia | constructor].
  - cbn [runItems]. cbv zeta.
    destruct (find (fun i => (Item.id i =? Item.id currentItem)%string)
                (batchItems r)) as [freshItem|].
    + pose proof (processBatchItem_bookkeeping r freshItem
                    (setBatchItems (updateAt index (withStatus Item.loading))
                       st)) as Hp.
      destruct (processBatchItem r freshItem
                  (setBatchItems (updateAt index (withStatus Item.loading))
                     st)) as [[resultItem st2] attempts].
      simpl in Hp. destruct Hp as (Hk & Hs & Hg & Hb).
      specialize (IH (setBatchItems (replaceById resultItem) st2)).
      destruct (runItems r todo (setBatchItems (replaceById resultItem) st2))
        as [st4 log].
      simpl in IH |- *. destruct IH as (IHk & IHs & IHg & IHb).
      split; [congruence|]. split; [congruence|]. split.
      * rewrite IHg, Hg. unfold attemptsOf. simpl.
        rewrite length_app. lia.
      * constructor; [exact Hb | exact IHb].
    + apply (IH (setBatchItems (updateAt index (withStatus Item.loading)) st)).
Qed.

(** X12.  A bulk run, from whatever render: the selection and the list of
    secrets are what they were; the cursor has advanced by the number of
    attempts of the run; and no item took more attempts than the render had
    active credentials. *)
Theorem bulk_run_bookkeeping (r st : AppState) :
  let '(st', log) := handleGenerateBatch r st in
  selectedIds st' = selectedIds st /\
  map key (apiKeys st') = map key (apiKeys st) /\
  globalKeyIndex st' = (globalKeyIndex st + N.of_nat (attemptsOf log))%N /\
  Forall (fun entry => length (snd entry)
                       <= length (filter isActive (apiKeys r))) log.
Proof.
  unfold handleGenerateBatch.
  destruct (length (filter isActive (apiKeys r)) =? 0).
  - simpl. repeat split; [unfold attemptsOf; simpl; lia | constructor].
  - pose proof (runItems_bookkeeping r (itemsToProcess r)
                  (set_isBatchProcessing true st)) as H.
    destruct (runItems r (itemsToProcess r) (set_isBatchProcessing true st))
      as [st' log].
    simpl in H |- *. tauto.
Qed.

(** A call of the engine only marks and counts: a list that knows the
    store before the call knows it after. *)
Lemma attemptGenerate_stillKnown (captured apiKeys0 : list ApiKeyData)
  (params : Params.t) (st : AppState) :
  stillKnown captured st ->
  stillKnown captured (snd (fst (attemptGenerate apiKeys0 params st))).
Proof.
  tidy2. intros Hknown c' Hc' Hact'. unfold attemptGenerate in Hc'.
  rewrite attemptLoop_store in Hc'. apply in_map_iff in Hc'.
  destruct Hc' as (c & <- & Hc).
  destruct (attemptLoop_entry apiKeys0 params [] st c)
    as (Hkey & _ & _ & Hstatus & _).
  destruct (Hknown c Hc (Hstatus Hact')) as (c0 & Hc0 & Hkey0 & Hact0).
  exists c0. split; [exact Hc0|]. split; [congruence | exact Hact0].
Qed.

Lemma processBatchItem_stillKnown (captured : list ApiKeyData)
  (r : AppState) (item : Item.t) (st : AppState) :
  stillKnown captured st ->
  stillKnown captured (snd (fst (processBatchItem r item st))).
Proof.
  tidy2. intros Hknown. unfold processBatchItem.
  match goal with
  | |- context [attemptGenerate ?a ?p ?s] =>
      pose proof (@attemptGenerate_stillKnown captured a p s Hknown) as H;
      destruct (attemptGenerate a p s) as [[res st1] attempts]
  end.
  cbn [fst snd] in H.
  destruct res as [base64Audio|e]; [|exact H].
  destruct (createWavBlob base64Audio) as [e|wavBlob]; [exact H|].
  destruct (createObjectURL (world st1) wavBlob) as [url w]. exact H.
Qed.

Lemma runItems_stillKnown (captured : list ApiKeyData) (r : AppState)
  (todo : list (Item.t * nat)) :
  forall st, stillKnown captured st ->
  stillKnown captured (fst (runItems r todo st)).
Proof.
  tidy2. induction todo as [|[currentItem index] todo IH]; intros st Hknown;
    [exact Hknown|].
  cbn [runItems]. cbv zeta.
  destruct (find (fun i => (Item.id i =? Item.id currentItem)%string)
              (batchItems r)) as [freshItem|].
  - pose proof (@processBatchItem_stillKnown captured r freshItem
                  (setBatchItems (updateAt index (withStatus Item.loading)) st)
                  Hknown) as Hp.
    destruct (processBatchItem r freshItem
                (setBatchItems (updateAt index (withStatus Item.loading)) st))
      as [[resultItem st2] attempts].
    cbn [fst snd] in Hp.
    specialize (IH (setBatchItems (replaceById resultItem) st2) Hp).
    destruct (runItems r todo (setBatchItems (replaceById resultItem) st2))
      as [st4 log].
    exact IH.
  - apply IH. exact Hknown.
Qed.

(** X23.  Along a bulk run started from the current render, whatever the
    number of items already run, the list the run captured still knows the
    store: every credential that is active in the store is active in that
    list, and the store holds the same secrets in the same order.  Every
    call of the engine in the run is therefore one of those of X18: when
    it fails, every credential active in the store has been tried. *)
Theorem bulk_run_calls_know_the_store (st : AppState) (n : nat) :
  let before :=
    fst (runItems st (firstn n (itemsToProcess st))
           (set_isBatchProcessing true st)) in
  stillKnown (apiKeys st) before /\
  map key (apiKeys before) = map key (apiKeys st) /\
  forall item,
    let '(res, _, attempts) :=
      attemptGenerate (apiKeys st) (itemParams st item) before in
    match res with
    | Resolved _ => True
    | Rejected _ =>
        forall c, In c (apiKeys before) -> status c = active ->
          In (key c) (map triedKey attempts)
    end.
Proof.
  tidy2. cbv zeta.
  assert (Hknown :
    stillKnown (apiKeys st)
      (fst (runItems st (firstn n (itemsToProcess st))
              (set_isBatchProcessing true st)))).
  { apply runItems_stillKnown. intros c Hc Hact. exists c. auto. }
  split; [exact Hknown|]. split.
  - apply (runItems_bookkeeping st (firstn n (itemsToProcess st))
             (set_isBatchProcessing true st)).
  - intros item. unfold attemptGenerate.
    match goal with
    | |- context [attemptLoop ?a ?p [] ?s] =>
        pose proof (attemptLoop_outcome a p [] s) as (_ & _ & Hres);
        destruct (attemptLoop a p [] s) as [[res st'] attempts]
    end.
    cbn [fst snd] in Hres. destruct res as [payload|e]; [exact I|].
    destruct Hres as (_ & _ & Hcover). intros c Hc Hact.
    destruct (Hknown c Hc Hact) as (c0 & Hc0 & Hkey & Hact0).
    apply isActive_true in Hact0.
    destruct (Hcover c0 Hc0 Hact0) as [H|H]; [discriminate|].
    rewrite <- Hkey. exact H.
Qed.

Lemma handleSynthesizeSingle_keys (r st : AppState) :
  map key (apiKeys (fst (handleSynthesizeSingle r st)))
  = map key (apiKeys st).
Proof.
  unfold handleSynthesizeSingle.
  destruct (negb (Js.truthy (Js.trim (text r)))); [reflexivity|].
  destruct (0 <? length (violations (text r))); [reflexivity|].
  match goal with
  | |- context [attemptGenerate ?a ?p ?s] =>
      pose proof (attemptGenerate_bookkeeping a p s) as (H & _);
      destruct (attemptGenerate a p s) as [[res st2] attempts]
  end.
  simpl in H.
  destruct res as [base64Audio|e]; [|exact H].
  destruct (createWavBlob base64Audio) as [e|wavBlob]; [exact H|].
  destruct (createObjectURL (world st2) wavBlob) as [url w]. exact H.
Qed.

Lemma NoDup_filter_keys (p : ApiKeyData -> bool) (l : list ApiKeyData) :
  NoDup (map key l) -> NoDup (map key (filter p l)).
Proof.
  induction l as [|c l IH]; simpl; intros H; [constructor|].
  apply NoDup_cons_iff in H as [Hfresh H].
  destruct (p c); simpl; [|apply IH; exact H].
  constructor; [|apply IH; exact H].
  intros Hin. apply Hfresh. apply in_map_iff in Hin as (d & Hd & Hin).
  apply filter_In in Hin as [Hin _]. rewrite <- Hd. apply in_map. exact Hin.
Qed.

Lemma existsb_key (k : string) (l : list ApiKeyData) :
  existsb (fun c => (key c =? k)%string) l = true <-> In k (map key l).
Proof.
  rewrite existsb_exists, in_map_iff. split.
  - intros (c & Hc & Heq). apply String.eqb_eq in Heq. eauto.
  - intros (c & Heq & Hc). exists c. split; [exact Hc|].
    apply String.eqb_eq. exact Heq.
Qed.

Lemma NoDup_snoc (l : list string) (x : string) :
  NoDup l -> ~ In x l -> NoDup (l ++ [x]).
Proof.
  tidy2.
  induction l as [|y l IH]; simpl; intros Hnd Hx.
  - constructor; [tauto | constructor].
  - apply NoDup_cons_iff in Hnd as [Hy Hnd].
    constructor; [|apply IH; tauto].
    intros Hin. apply in_app_or in Hin as [Hin|[<-|[]]]; tauto.
Qed.

Lemma handleGenerateBatch_keys (r st : AppState) :
  map key (apiKeys (fst (handleGenerateBatch r st))) = map key (apiKeys st).
Proof.
  unfold handleGenerateBatch.
  destruct (length (filter isActive (apiKeys r)) =? 0); [reflexivity|].
  pose proof (runItems_bookkeeping r (itemsToProcess r)
                (set_isBatchProcessing true st)) as (H & _).
  destruct (runItems r (itemsToProcess r) (set_isBatchProcessing true st))
    as [st' log].
  exact H.
Qed.

(** X13.  Secrets stay distinct.  Adding, from the current render, never
    stores a secret that is already there; removing keeps the others; and
    resetting, a call of the engine, a single request and a bulk run leave
    the list of secrets exactly as it was. *)
Theorem secrets_stay_distinct (st : AppState) :
  NoDup (map key (apiKeys st)) ->
  (forall now, NoDup (map key (apiKeys (handleAddKey now st st)))) /\
  (forall k, NoDup (map key (apiKeys (handleRemoveKey k st)))) /\
  (forall k, map key (apiKeys (handleResetKeyStatus k st))
             = map key (apiKeys st)) /\
  (forall apiKeys0 params,
     map key (apiKeys (snd (fst (attemptGenerate apiKeys0 params st))))
     = map key (apiKeys st)) /\
  (forall r, map key (apiKeys (fst (handleSynthesizeSingle r st)))
             = map key (apiKeys st)) /\
  (forall r, map key (apiKeys (fst (handleGenerateBatch r st)))
             = map key (apiKeys st)).
Proof.
  intros Hnd. split; [|split; [|split; [|split; [|split]]]].
  - intros now. unfold handleAddKey.
    destruct (negb (Js.truthy (Js.trim (newKeyInput st)))); [exact Hnd|].
    destruct (existsb (fun k => (key k =? Js.trim (newKeyInput st))%string)
                (apiKeys st)) eqn:Hdup; [exact Hnd|].
    simpl. rewrite map_app. simpl. apply NoDup_snoc; [exact Hnd|].
    intros Hin. apply existsb_key in Hin. congruence.
  - intros k. simpl. apply NoDup_filter_keys. exact Hnd.
  - intros k. simpl. apply map_key_map. apply key_resetKey.
  - intros apiKeys0 params. apply attemptGenerate_bookkeeping.
  - intros r. apply handleSynthesizeSingle_keys.
  - intros r. apply handleGenerateBatch_keys.
Qed.

Lemma filter_other_keys (k : string) (l : list ApiKeyData) :
  ~ In k (map key l) ->
  filter (fun c => negb (key c =? k)%string) l = l.
Proof.
  tidy2.
  induction l as [|c l IH]; simpl; intros H; [reflexivity|].
  destruct (String.eqb_spec (key c) k) as [Heq|_]; [tauto|].
  simpl. rewrite IH by tauto. reflexivity.
Qed.

(** X14.  Adding and removing a secret, from the current render.  An input
    that is blank once trimmed, or whose trimmed text is already a secret
    of the list, changes nothing at all.  Otherwise the trimmed text is
    appended as an active, never used credential and the input is emptied;
    removing that secret then gives back the list as it was.  Removing a
    secret leaves no credential with it, and removing one that is not
    there changes nothing. *)
Theorem add_and_remove_key (now : N) (st : AppState) :
  let k := Js.trim (newKeyInput st) in
  (k = EmptyString \/ In k (map key (apiKeys st)) ->
   handleAddKey now st st = st) /\
  (k <> EmptyString -> ~ In k (map key (apiKeys st)) ->
   apiKeys (handleAddKey now st st) = apiKeys st ++ [freshKey k now] /\
   newKeyInput (handleAddKey now st st) = EmptyString /\
   apiKeys (handleRemoveKey k (handleAddKey now st st)) = apiKeys st) /\
  (forall k', ~ In k' (map key (apiKeys (handleRemoveKey k' st)))) /\
  (forall k', ~ In k' (map key (apiKeys st)) ->
   apiKeys (handleRemoveKey k' st) = apiKeys st).
Proof.
  intros k. subst k. unfold handleAddKey.
  split; [|split; [|split]].
  - intros [Hblank|Hdup].
    + rewrite Hblank. reflexivity.
    + destruct (negb (Js.truthy (Js.trim (newKeyInput st)))); [reflexivity|].
      apply existsb_key in Hdup. rewrite Hdup. reflexivity.
  - intros Hne Hnew. apply truthy_nonempty in Hne. rewrite Hne. simpl negb.
    cbv iota.
    destruct (existsb (fun c => (key c =? Js.trim (newKeyInput st))%string)
                (apiKeys st)) eqn:Hdup.
    + apply existsb_key in Hdup. contradiction.
    + simpl. split; [reflexivity|]. split; [reflexivity|].
      rewrite filter_app. simpl. rewrite String.eqb_refl. simpl.
      rewrite app_nil_r. apply filter_other_keys. exact Hnew.
  - intros k' Hin. simpl in Hin. apply in_map_iff in Hin as (c & Hc & Hin).
    apply filter_In in Hin as [_ Hin]. apply negb_true_iff in Hin.
    apply String.eqb_neq in Hin. contradiction.
  - intros k' Hnot. simpl. apply filter_other_keys. exact Hnot.
Qed.

(** ** Resetting a credential ([handleResetKeyStatus]) *)

Lemma resetKey_markKey (k reason : string) (isQuota : bool) (c : ApiKeyData) :
  resetKey k (markKey k reason isQuota c) = resetKey k c.
Proof.
  unfold resetKey, markKey.
  destruct (key c =? k)%string eqn:E; simpl; rewrite E; reflexivity.
Qed.

Lemma resetKey_fresh (k : string) (c : ApiKeyData) :
  (key c = k -> status c = active /\ errorMessage c = None) ->
  resetKey k c = c.
Proof.
  intros H. unfold resetKey.
  destruct (key c =? k)%string eqn:E; [|reflexivity].
  apply String.eqb_eq in E. destruct (H E) as [Hs He].
  destruct c; simpl in *. subst. reflexivity.
Qed.

(** X17.  [handleResetKeyStatus] puts every credential with the given secret
    back into rotation, active and without a reason, and leaves its counter,
    its registration time and the other credentials alone; it undoes a mark
    made by [markKeyError] on the same secret, so that marking and then
    resetting a credential that was in rotation gives back the page as it
    was. *)
Theorem reset_restores_credential (k : string) (st : AppState) :
  Forall2 (fun before after =>
             key after = key before /\
             usageCount after = usageCount before /\
             addedAt after = addedAt before /\
             (key before = k ->
              status after = active /\ errorMessage after = None) /\
             (key before <> k -> after = before))
          (apiKeys st) (apiKeys (handleResetKeyStatus k st)) /\
  (forall reason isQuota,
     handleResetKeyStatus k (markKeyError k reason isQuota st)
     = handleResetKeyStatus k st) /\
  (Forall (fun c => key c = k -> status c = active /\ errorMessage c = None)
          (apiKeys st) ->
   forall reason isQuota,
     handleResetKeyStatus k (markKeyError k reason isQuota st) = st).
Proof.
  tidy2.
  assert (Hmark : forall reason isQuota,
            handleResetKeyStatus k (markKeyError k reason isQuota st)
            = handleResetKeyStatus k st).
  { intros reason isQuota. unfold handleResetKeyStatus, markKeyError.
    destruct st; unfold setApiKeys, set_apiKeys; simpl.
    rewrite map_map. f_equal. apply map_ext. intros c.
    apply resetKey_markKey. }
  split; [|split].
  - simpl. induction (apiKeys st) as [|c l IH]; simpl; constructor; auto.
    unfold resetKey. destruct (key c =? k)%string eqn:E; simpl.
    + apply String.eqb_eq in E.
      split; [reflexivity|]. split; [reflexivity|]. split; [reflexivity|].
      split; [intros _; split; reflexivity | intros Hne; contradiction].
    + apply String.eqb_neq in E.
      split; [reflexivity|]. split; [reflexivity|]. split; [reflexivity|].
      split; [intros He; contradiction | intros _; reflexivity].
  - exact Hmark.
  - intros Hfresh reason isQuota. rewrite Hmark. clear Hmark.
    unfold handleResetKeyStatus. destruct st; simpl in *.
    unfold setApiKeys, set_apiKeys; simpl. f_equal.
    induction Hfresh as [|c l Hc _ IH]; simpl; [reflexivity|].
    rewrite (@resetKey_fresh k c Hc), IH. reflexivity.
Qed.

End Studio.

(** ** The credential store *)

(** X22.  What [getStoredApiKeys] returns: the value the record under the
    current key parses to, whatever that value is; what [saveStoredApiKeys] wrote,
    when [JSON.parse] reads it back; the empty list with no record under
    either key, and for a record that does not parse (nothing is thrown:
    the function is total); and, with no record under the current key and a
    legacy record holding a secret, one credential for that secret, active
    and never used, written under the current key, the legacy record
    removed and every other entry of the storage left alone.  A record is
    one that JavaScript counts as true: not the empty string. *)
Theorem load_credentials (Other : Type)
  (JSON_parse : string -> option (Store.Parsed Other))
  (JSON_stringify : list ApiKeyData -> string)
  (now : N) (ls : Store.Storage) :
  let load := Store.getStoredApiKeys JSON_parse JSON_stringify now in
  (forall stored value,
     Store.getItem ls Store.LOCAL_STORAGE_KEY = Some stored ->
     stored <> EmptyString -> JSON_parse stored = Some value ->
     load ls = (value, ls)) /\
  (forall keys,
     JSON_stringify keys <> EmptyString ->
     JSON_parse (JSON_stringify keys) = Some (Store.Credentials keys) ->
     fst (load (Store.saveStoredApiKeys JSON_stringify keys ls))
     = Store.Credentials keys) /\
  (Store.getItem ls Store.LOCAL_STORAGE_KEY = None ->
   Store.getItem ls Store.OLD_STORAGE_KEY = None ->
   load ls = (Store.Credentials [], ls)) /\
  (forall stored,
     Store.getItem ls Store.LOCAL_STORAGE_KEY = Some stored ->
     stored <> EmptyString -> JSON_parse stored = None ->
     load ls = (Store.Credentials [], ls)) /\
  (forall oldKey,
     Store.getItem ls Store.LOCAL_STORAGE_KEY = None ->
     Store.getItem ls Store.OLD_STORAGE_KEY = Some oldKey ->
     oldKey <> EmptyString ->
     let '(value, ls') := load ls in
     (exists c, value = Store.Credentials [c] /\ key c = oldKey /\
                status c = active /\ usageCount c = 0%N /\
                errorMessage c = None /\
                Store.getItem ls' Store.LOCAL_STORAGE_KEY
                = Some (JSON_stringify [c])) /\
     Store.getItem ls' Store.OLD_STORAGE_KEY = None /\
     forall k, k <> Store.OLD_STORAGE_KEY -> k <> Store.LOCAL_STORAGE_KEY ->
       Store.getItem ls' k = Store.getItem ls k).
Proof.
  intros load. subst load. unfold Store.getStoredApiKeys, Store.migrateOldKey.
  split; [|split; [|split; [|split]]].
  - intros stored value Hget Hne Hparse. rewrite Hget.
    apply truthy_nonempty in Hne. rewrite Hne, Hparse. reflexivity.
  - intros keys Hne Hparse. unfold Store.saveStoredApiKeys, Store.getItem,
      Store.setItem. rewrite String.eqb_refl.
    apply truthy_nonempty in Hne. rewrite Hne, Hparse. reflexivity.
  - intros H1 H2. rewrite H1, H2. reflexivity.
  - intros stored Hget Hne Hparse. rewrite Hget.
    apply truthy_nonempty in Hne. rewrite Hne, Hparse. reflexivity.
  - intros oldKey H1 H2 Hne. rewrite H1, H2.
    apply truthy_nonempty in Hne. rewrite Hne.
    split; [|split].
    + exists (freshKey oldKey now). repeat split.
    + reflexivity.
    + intros k Hk1 Hk2. unfold Store.getItem, Store.setItem, Store.removeItem.
      apply String.eqb_neq in Hk1, Hk2. rewrite Hk1, Hk2. reflexivity.
Qed.

(** ** Saving the credentials and loading them again *)

(** The effect of [App] that follows every change of [apiKeys]: the list is
    saved when it is not empty or when a record is already stored. *)
Definition persistEffect (JSON_stringify : list ApiKeyData -> string)
  (keys : list ApiKeyData) (ls : Store.Storage) : Store.Storage :=
  if (0 <? length keys)
     || match Store.getItem ls Store.LOCAL_STORAGE_KEY with
        | Some stored => Js.truthy stored
        | None => false
        end
  then Store.saveStoredApiKeys JSON_stringify keys ls
  else ls.

(** X15.  What the effect saved is what the next load returns, without
    writing anything: for a list that [JSON.parse] reads back from its
    [JSON.stringify] text, whenever the list is not empty or a record was
    stored before.  With an empty list and no record the effect writes
    nothing. *)
Theorem saved_credentials_load_back (Other : Type)
  (JSON_parse : string -> option (Store.Parsed Other))
  (JSON_stringify : list ApiKeyData -> string)
  (now : N) (keys : list ApiKeyData) (ls : Store.Storage) :
  JSON_stringify keys <> EmptyString ->
  JSON_parse (JSON_stringify keys) = Some (Store.Credentials keys) ->
  (keys <> [] \/
   (exists stored, Store.getItem ls Store.LOCAL_STORAGE_KEY = Some stored /\
                   stored <> EmptyString) ->
   Store.getStoredApiKeys JSON_parse JSON_stringify now
     (persistEffect JSON_stringify keys ls)
   = (Store.Credentials keys, persistEffect JSON_stringify keys ls)) /\
  (keys = [] ->
   Store.getItem ls Store.LOCAL_STORAGE_KEY = None ->
   persistEffect JSON_stringify keys ls = ls).
Proof.
  intros Hne Hparse. split.
  - intros Hsave.
    assert (Hp : persistEffect JSON_stringify keys ls
                 = Store.saveStoredApiKeys JSON_stringify keys ls).
    { unfold persistEffect. destruct Hsave as [Hkeys|(stored & Hget & Hs)].
      - destruct keys; [contradiction | reflexivity].
      - rewrite Hget. apply truthy_nonempty in Hs. rewrite Hs.
        rewrite orb_true_r. reflexivity. }
    rewrite Hp. unfold Store.getStoredApiKeys, Store.saveStoredApiKeys,
      Store.getItem, Store.setItem at 1.
    rewrite String.eqb_refl. apply truthy_nonempty in Hne.
    rewrite Hne, Hparse. reflexivity.
  - intros -> Hnone. unfold persistEffect. rewrite Hnone. reflexivity.
Qed.

(** X16.  A stored record hides the legacy one: while a record is stored
    under the current key, a load writes nothing, whether the record parses
    or not, so that a legacy record is neither migrated nor removed.  And a
    migration happens once: after the load that migrated a legacy secret,
    the next load returns the same credential, with the date of the
    migration, and writes nothing. *)
Theorem migration_happens_once (Other : Type)
  (JSON_parse : string -> option (Store.Parsed Other))
  (JSON_stringify : list ApiKeyData -> string)
  (now later : N) (ls : Store.Storage) :
  (forall stored,
     Store.getItem ls Store.LOCAL_STORAGE_KEY = Some stored ->
     stored <> EmptyString ->
     snd (Store.getStoredApiKeys JSON_parse JSON_stringify now ls) = ls) /\
  (forall oldKey,
     Store.getItem ls Store.LOCAL_STORAGE_KEY = None ->
     Store.getItem ls Store.OLD_STORAGE_KEY = Some oldKey ->
     oldKey <> EmptyString ->
     JSON_stringify [freshKey oldKey now] <> EmptyString ->
     JSON_parse (JSON_stringify [freshKey oldKey now])
     = Some (Store.Credentials [freshKey oldKey now]) ->
     let '(value, ls') :=
       Store.getStoredApiKeys JSON_parse JSON_stringify now ls in
     value = Store.Credentials [freshKey oldKey now] /\
     Store.getStoredApiKeys JSON_parse JSON_stringify later ls'
     = (value, ls')).
Proof.
  split.
  - intros stored Hget Hne. unfold Store.getStoredApiKeys. rewrite Hget.
    apply truthy_nonempty in Hne. rewrite Hne.
    destruct (JSON_parse stored); reflexivity.
  - intros oldKey Hnone Hold Hne Hs Hparse.
    unfold Store.getStoredApiKeys at 1, Store.migrateOldKey.
    rewrite Hnone, Hold. apply truthy_nonempty in Hne. rewrite Hne.
    split; [reflexivity|].
    unfold Store.getStoredApiKeys, Store.getItem, Store.setItem at 1.
    rewrite String.eqb_refl. apply truthy_nonempty in Hs.
    rewrite Hs, Hparse. reflexivity.
Qed.

(** * A concrete world

    A remote service whose answer depends on the key and on the prompt, a
    browser that numbers its object URLs, and a random generator that
    counts.  The scenarios below run the code in this world. *)

Module Demo.

Definition World : Type := N.
Definition Blob : Type := string.

Definition quotaError : JsError :=
  newError "got status: 429 Too Many Requests".
Definition deniedError : JsError :=
  newError "got status: 403 Forbidden".
Definition limitError : JsError :=
  newError "Limit reached: QUOTA_EXCEEDED".
Definition serverError : JsError :=
  newError "Internal error".

(** The service refuses the keys "K-quota", "K-denied" and "K-limit", each
    with its own error, refuses every prompt that holds the word FAIL, and
    otherwise answers with audio data made of the prompt. *)
Definition generateContent (w : World) (apiKey prompt voiceName : string)
  : RemoteOutcome * World :=
  ((if (apiKey =? "K-quota")%string then Threw quotaError
    else if (apiKey =? "K-denied")%string then Threw deniedError
    else if (apiKey =? "K-limit")%string then Threw limitError
    else if Js.includes "FAIL" prompt then Threw serverError
    else Responded (Some ("audio:" +++ prompt))),
   (w + 1)%N).

Definition createWavBlob (base64Audio : string) : JsError + Blob :=
  inr base64Audio.

Definition createObjectURL (w : World) (b : Blob) : string * World :=
  ("blob:" +++ Js.showN w, (w + 1)%N).

Definition randomId (w : World) : string * World :=
  ("id" +++ Js.showN w, (w + 1)%N).

Definition BANNED_WORDS : list string := ["spam"; "scam"].

Definition kore : Voice :=
  {| voice_id := "vi-female-1"; apiId := "Kore"; voice_name := "Kore";
     description := EmptyString |}.

(** The state of a page just loaded with the given credentials. *)
Definition page (keys : list ApiKeyData) : AppState World :=
  {| apiKeys := keys; globalKeyIndex := 0; newKeyInput := EmptyString;
     showKeyModal := false; selectedVoice := kore; speed := 100%N;
     pitch := 0%Z; isSSML := false; text := EmptyString;
     singleLoading := false; singleError := None; singleAudioUrl := None;
     batchItems := []; selectedIds := []; isBatchProcessing := false;
     world := 0%N; sent := [] |}.

Definition withText (t : string) (s : AppState World) : AppState World :=
  {| apiKeys := apiKeys s; globalKeyIndex := globalKeyIndex s;
     newKeyInput := newKeyInput s; showKeyModal := showKeyModal s;
     selectedVoice := selectedVoice s; speed := speed s; pitch := pitch s;
     isSSML := isSSML s; text := t; singleLoading := singleLoading s;
     singleError := singleError s; singleAudioUrl := singleAudioUrl s;
     batchItems := batchItems s; selectedIds := selectedIds s;
     isBatchProcessing := isBatchProcessing s; world := world s;
     sent := sent s |}.

Definition plain (t : string) : Params.t :=
  {| Params.text := t; Params.voiceId := "Kore"; Params.speed := 107%N;
     Params.pitch := (-35)%Z; Params.isSSML := false |}.

Definition LF : string := String Js.LF EmptyString.

Definition attempt := attemptGenerate generateContent.
Definition single :=
  handleSynthesizeSingle generateContent createWavBlob createObjectURL
    BANNED_WORDS.
Definition upload := handleFileUpload randomId.
Definition batch (st : AppState World) :=
  handleGenerateBatch generateContent createWavBlob createObjectURL st st.

(** Two credentials, the first of them out of quota at the service. *)
Definition twoKeys : list ApiKeyData :=
  [freshKey "K-quota" 0; freshKey "K-good" 0].

(** A file of three rows, the second of which the service refuses. *)
Definition threeRows : string :=
  "stt,text" +++ LF +++ "1,Hello" +++ LF +++ "2,say FAIL" +++ LF +++ "3,World".

Definition loaded : AppState World := upload threeRows (page twoKeys).

(** *** Claim C3: a failed key is tried again in the same bulk run

    [handleGenerateBatch] and the [attemptGenerate] it calls keep, for the
    whole run, the list of credentials of the render the run was started
    from.  The first item marks "K-quota" as out of quota in the state; the
    second and third items try it again all the same. *)
Lemma bulk_run_retries_failed_key :
  let '(st', log) := batch loaded in
  map (fun p => (fst p, map (fun a => (triedKey a, at_index a)) (snd p))) log
  = [("id0", [("K-quota", 0%N); ("K-good", 1%N)]);
     ("id1", [("K-quota", 2%N); ("K-good", 3%N)]);
     ("id2", [("K-quota", 4%N); ("K-good", 5%N)])] /\
  map req_apiKey (sent st')
  = ["K-quota"; "K-good"; "K-quota"; "K-good"; "K-quota"; "K-good"] /\
  map (fun k => (key k, status k))
    (apiKeys (fst (runItems generateContent createWavBlob createObjectURL
                     loaded (firstn 1 (itemsToProcess loaded)) loaded)))
  = [("K-quota", quota_exceeded); ("K-good", active)] /\
  map (fun k => (key k, status k, usageCount k)) (apiKeys st')
  = [("K-quota", quota_exceeded, 0%N); ("K-good", error, 2%N)].
Proof.
  vm_compute. repeat split.
Qed.

(** The same two requests made from two renders, as in single mode: the
    second call sees the first key marked and leaves it alone. *)
Lemma fresh_render_skips_failed_key :
  let '(_, st1, attempts1) := attempt twoKeys (plain "one") (page twoKeys) in
  let '(_, _, attempts2) := attempt (apiKeys st1) (plain "two") st1 in
  map triedKey attempts1 = ["K-quota"; "K-good"] /\
  map triedKey attempts2 = ["K-good"].
Proof.
  vm_compute. repeat split.
Qed.

(** *** Claim C2: the eligible list of a later item of the run *)

(** The state in which the second item of the run above starts. *)
Definition afterFirstItem : AppState World :=
  fst (runItems generateContent createWavBlob createObjectURL loaded
         (firstn 1 (itemsToProcess loaded))
         (set_isBatchProcessing true loaded)).

(** Claim C2.  When the second item of the run starts, the store has
    "K-quota" out of quota and "K-good" active: the credentials with status
    active that are not excluded are "K-good" alone.  The list the engine
    filters for that item is the one of the render the run was started
    from; its first attempt, at cursor 2 with nothing excluded, finds
    "K-quota" and "K-good" eligible and picks "K-quota".  The last
    equation says that the run is the first item followed by the rest of
    the run from that state. *)
Lemma eligible_list_is_stale :
  map (fun c => (key c, status c)) (apiKeys afterFirstItem)
  = [("K-quota", quota_exceeded); ("K-good", active)] /\
  map key (activeKeysOf (apiKeys afterFirstItem) []) = ["K-good"] /\
  map (fun a => (at_index a, at_attemptedKeys a,
                 map (fun c => (key c, status c)) (at_activeKeys a),
                 triedKey a))
    (snd (nth 1 (snd (batch loaded)) (EmptyString, [])))
  = [(2%N, [], [("K-quota", active); ("K-good", active)], "K-quota");
     (3%N, ["K-quota"], [("K-good", active)], "K-good")] /\
  snd (batch loaded)
  = snd (runItems generateContent createWavBlob createObjectURL loaded
           (firstn 1 (itemsToProcess loaded))
           (set_isBatchProcessing true loaded))
    ++ snd (runItems generateContent createWavBlob createObjectURL loaded
              (skipn 1 (itemsToProcess loaded)) afterFirstItem).
Proof.
  vm_compute. repeat split.
Qed.

(** The call of the engine for the second item, made with the list of the
    render: it still knows the store, tries the stale "K-quota" and then
    "K-good", the one credential that is active in the store, once. *)
Lemma stale_call_covers_the_store_witness :
  stillKnown twoKeys afterFirstItem /\
  fst (fst (attempt twoKeys (plain "say FAIL") afterFirstItem))
  = Rejected noActiveKeys /\
  count_occ string_dec
    (map triedKey (snd (attempt twoKeys (plain "say FAIL") afterFirstItem)))
    "K-good" = 1.
Proof.
  assert (Hstore : apiKeys afterFirstItem
                   = [{| key := "K-quota"; status := quota_exceeded;
                         errorMessage := Some "QUOTA_EXCEEDED";
                         usageCount := 0; addedAt := 0 |};
                      {| key := "K-good"; status := active;
                         errorMessage := None;
                         usageCount := 1; addedAt := 0 |}])
    by (vm_compute; reflexivity).
  assert (Hk : stillKnown twoKeys afterFirstItem).
  { intros c Hc Hact. rewrite Hstore in Hc. destruct Hc as [<-|[<-|[]]].
    - discriminate Hact.
    - exists (freshKey "K-good" 0).
      split; [right; left; reflexivity|]. split; reflexivity. }
  assert (Hr : fst (fst (attempt twoKeys (plain "say FAIL") afterFirstItem))
               = Rejected noActiveKeys)
    by (vm_compute; reflexivity).
  split; [exact Hk|]. split; [exact Hr|].
  pose proof (@stale_call_covers_the_store World generateContent twoKeys
                (plain "say FAIL") afterFirstItem Hk) as H.
  unfold attempt in *.
  destruct (attemptGenerate generateContent twoKeys (plain "say FAIL")
              afterFirstItem) as [[r st'] attempts].
  cbn [fst snd] in *. subst r.
  destruct H as (_ & _ & (_ & Hcount) & _).
  apply (Hcount {| key := "K-good"; status := active; errorMessage := None;
                   usageCount := 1; addedAt := 0 |}).
  - rewrite Hstore. right. left. reflexivity.
  - reflexivity.
Defined.

(** *** Claim C5: a failure outside the classes that counts as a quota failure *)

Definition limitKey : list ApiKeyData := [freshKey "K-limit" 0].

Definition markedLimit : ApiKeyData :=
  {| key := "K-limit"; status := quota_exceeded;
     errorMessage := Some "Limit reached: QUOTA_EXCEEDED";
     usageCount := 0; addedAt := 0 |}.

(** The text of [limitError] holds none of the four markers, so the sentence
    of the specification has the credential marked [error]; the code marks
    it [quota_exceeded]. *)
Lemma limit_error_marked_as_quota :
  ~ failureMarks generateContent
      (fun e => statusOfClass (classify (toString e))).
Proof.
  intros H.
  assert (Hin : In markedLimit
                  (apiKeys (snd (fst (attemptLoop generateContent limitKey
                                        (plain "hi") [] (page limitKey))))))
    by (vm_compute; left; reflexivity).
  specialize (H limitKey (plain "hi") [] (page limitKey)
                (freshKey "K-limit" 0) [] (Threw limitError) 1%N limitError
                markedLimit eq_refl eq_refl eq_refl eq_refl Hin eq_refl).
  vm_compute in H. discriminate H.
Qed.

Definition quotaKey : list ApiKeyData := [freshKey "K-quota" 0].

Definition markedQuota : ApiKeyData :=
  {| key := "K-quota"; status := quota_exceeded;
     errorMessage := Some "QUOTA_EXCEEDED";
     usageCount := 0; addedAt := 0 |}.

Lemma remote_failure_marks_credential_witness :
  classify (toString quotaError) = QuotaExceeded /\
  status markedQuota = markedAs quotaError /\
  errorMessage markedQuota = Some (messageKept quotaError).
Proof.
  split; [reflexivity|].
  apply (@remote_failure_marks_credential World generateContent quotaKey
           (plain "hi") [] (page quotaKey) (freshKey "K-quota" 0) []
           (Threw quotaError) 1%N quotaError markedQuota);
    try reflexivity.
  vm_compute. left. reflexivity.
Defined.

(** *** Claim C4 *)


(** *** Claim C6: a banned entry written with a capital *)

Definition spamPage : AppState World := withText "Buy SPAM now" (page twoKeys).

Lemma single_mode_preconditions_witness :
  Js.trim (text spamPage) <> EmptyString /\
  filter (fun w => lowerCaseEntryIn w (text spamPage)) BANNED_WORDS <> [] /\
  singleError (fst (single spamPage spamPage))
  = Some "Content contains banned words: spam" /\
  snd (single spamPage spamPage) = [] /\
  sent (fst (single spamPage spamPage)) = [] /\
  apiKeys (fst (single spamPage spamPage)) = twoKeys.
Proof.
  assert (Htext : Js.trim (text spamPage) <> EmptyString)
    by (vm_compute; discriminate).
  assert (Hfound : filter (fun w => lowerCaseEntryIn w (text spamPage))
                     BANNED_WORDS <> [])
    by (vm_compute; discriminate).
  split; [exact Htext|]. split; [exact Hfound|].
  pose proof (proj1 (@single_mode_preconditions World Blob generateContent
                       createWavBlob createObjectURL BANNED_WORDS)
                spamPage spamPage) as H.
  cbv zeta in H. unfold single.
  destruct (handleSynthesizeSingle generateContent createWavBlob
              createObjectURL BANNED_WORDS spamPage spamPage)
    as [st' attempts].
  destruct H as [_ H].
  destruct (H Htext Hfound) as (H1 & H2 & H3 & _ & H5).
  simpl. rewrite H1, H2, H3, H5. repeat split.
Defined.

(** A banned list whose entry has a capital, and a text that is that very
    word. *)
Definition capitalEntry : list string := ["Spam"].

Definition spamWord : AppState World := withText "Spam" (page twoKeys).

(** The code compares the entry with the lower-cased text, finds nothing,
    and goes to the service with both credentials. *)
Lemma capital_entry_dispatched :
  caseInsensitive "Spam" (text spamWord) = true /\
  Js.includes "Spam" (Js.toLowerCase (text spamWord)) = false /\
  let '(st', attempts) :=
    handleSynthesizeSingle generateContent createWavBlob createObjectURL
      capitalEntry spamWord spamWord in
  map triedKey attempts = ["K-quota"; "K-good"] /\
  map req_apiKey (sent st') = ["K-quota"; "K-good"] /\
  map (fun c => (key c, status c, usageCount c)) (apiKeys st')
  = [("K-quota", quota_exceeded, 0%N); ("K-good", active, 1%N)] /\
  singleError st' = None.
Proof.
  vm_compute. repeat split.
Qed.

(** Claim C6, as it is written: with the match that ignores the case of
    both sides, the request above would have to be refused. *)
Lemma capital_entry_not_refused :
  ~ shortCircuits generateContent createWavBlob createObjectURL capitalEntry
      caseInsensitive.
Proof.
  intros H. specialize (H spamWord spamWord). cbv zeta in H.
  destruct (handleSynthesizeSingle generateContent createWavBlob
              createObjectURL capitalEntry spamWord spamWord)
    as [st' attempts] eqn:Hrun.
  destruct H as [_ H].
  destruct H as (_ & Hnone & _).
  - vm_compute. discriminate.
  - vm_compute. discriminate.
  - vm_compute in Hrun. injection Hrun as _ <-. discriminate Hnone.
Qed.

(** *** Claim C7 *)



(** A random generator that gives the same identity twice, and the page
    after the upload of two rows with it. *)
Definition sameId (w : World) : string * World := ("k3x9", (w + 1)%N).

Definition twins : AppState World :=
  handleFileUpload sameId
    ("stt,text" +++ LF +++ "1,Hello" +++ LF +++ "2,World")
    (page [freshKey "K-good" 0]).

(** Claim C7.  Two rows for which [Math.random] gave the same identity.
    Both items are selected and idle, so the claim has each of them run and
    settled.  The run marks the second item as running by its index, then
    looks the item up by identity, finds the first, runs that one a second
    time and writes the result over the first: the text of the second item
    is never sent and the item is left in state loading. *)
Lemma bulk_run_with_equal_ids :
  map (fun i => (Item.id i, Item.stt i, Item.text i, Item.status i))
    (batchItems twins)
  = [("k3x9", "1", "Hello", Item.idle); ("k3x9", "2", "World", Item.idle)] /\
  selectedIds twins = ["k3x9"] /\
  map fst (itemsToProcess twins) = batchItems twins /\
  let '(st', log) := batch twins in
  map (fun p => (fst p, map triedKey (snd p))) log
  = [("k3x9", ["K-good"]); ("k3x9", ["K-good"])] /\
  map req_text (sent st') = ["Hello"; "Hello"] /\
  map (fun i => (Item.stt i, Item.text i, Item.status i, Item.audioUrl i))
    (batchItems st')
  = [("1", "Hello", Item.success, Some "blob:5");
     ("2", "World", Item.loading, None)].
Proof.
  vm_compute. repeat split.
Qed.

(** The scenario of the specification: of three selected idle items, the
    second fails and the run goes on to the third. *)
Lemma three_rows_scenario :
  map (fun i => (Item.stt i, Item.status i, Item.audioUrl i, Item.errorMsg i))
    (batchItems (fst (batch loaded)))
  = [("1", Item.success, Some "blob:5", None);
     ("2", Item.error, None,
      Some "No active API keys available. Please check your key list.");
     ("3", Item.success, Some "blob:10", None)].
Proof.
  vm_compute. reflexivity.
Qed.

(** *** Claim C8: a wrapped label keeps its doubled quotes *)

Definition quoted (s : string) : string := quote +++ s +++ quote.

(** A header and one row, whose label is the text a, two double quotes, b,
    wrapped in double quotes, and whose content is x. *)
Definition quotedLabelFile : string :=
  "stt,text" +++ LF +++ quoted ("a" +++ quote +++ quote +++ "b") +++ ",x".

Lemma quoted_label_row :
  map (fun i => (Item.stt i, Item.text i))
    (batchItems (upload quotedLabelFile (page [])))
  = [("a" +++ quote +++ quote +++ "b", "x")] /\
  specField (quoted ("a" +++ quote +++ quote +++ "b")) = "a" +++ quote +++ "b".
Proof.
  vm_compute. split; reflexivity.
Qed.

(** Claim C8.  The claim has doubled quotes undone in every wrapped field;
    for this file it would make the label a, one double quote, b.  The code
    undoes them in the content and forgets the label, which keeps both
    quotes. *)
Lemma quoted_label_not_unescaped :
  ~ ingests randomId specField specField quotedLabelFile (page []).
Proof.
  unfold ingests. intros (newItems & Happend & Hrows & _).
  assert (Hitems : batchItems (handleFileUpload randomId quotedLabelFile
                                 (page []))
                   = [newItem "id0" ("a" +++ quote +++ quote +++ "b") "x"])
    by (vm_compute; reflexivity).
  rewrite Hitems in Happend. simpl in Happend. subst newItems.
  assert (Hlines : filter isRow (tl (Js.splitLines quotedLabelFile))
                   = [quoted ("a" +++ quote +++ quote +++ "b") +++ ",x"])
    by (vm_compute; reflexivity).
  rewrite Hlines in Hrows.
  inversion Hrows as [|line item lines items Hrow _]; subst.
  destruct Hrow as (m1 & m2 & Hline & Hno & Hstt & _).
  assert (Hcut : Js.cutAtComma
                   (quoted ("a" +++ quote +++ quote +++ "b") +++ ",x")
                 = Some (m1, m2))
    by (apply cutAtComma_spec; auto).
  vm_compute in Hcut. injection Hcut as <- <-.
  vm_compute in Hstt. discriminate Hstt.
Qed.

(** The scenario of the specification: a header and two rows give two
    items, idle and selected. *)
Lemma two_rows_scenario :
  let st' := upload ("stt,text" +++ LF +++ "1,Hello" +++ LF +++ "2,World")
               (page []) in
  map (fun i => (Item.id i, Item.stt i, Item.text i, Item.status i))
    (batchItems st')
  = [("id0", "1", "Hello", Item.idle); ("id1", "2", "World", Item.idle)] /\
  selectedIds st' = ["id0"; "id1"].
Proof.
  vm_compute. split; reflexivity.
Qed.

(** *** Claim C9: a record that parses, but not to a list *)

Definition statusName (s : ApiKeyStatus) : string :=
  match s with
  | active => "active"
  | quota_exceeded => "quota_exceeded"
  | error => "error"
  end.

(** The JSON text of a list of credentials, for secrets and messages that
    need no escaping; the properties come in the order the objects got
    them. *)
Definition showKey (k : ApiKeyData) : string :=
  "{" +++ quoted "key" +++ ":" +++ quoted (key k)
    +++ "," +++ quoted "status" +++ ":" +++ quoted (statusName (status k))
    +++ "," +++ quoted "usageCount" +++ ":" +++ Js.showN (usageCount k)
    +++ "," +++ quoted "addedAt" +++ ":" +++ Js.showN (addedAt k)
    +++ match errorMessage k with
        | Some m => "," +++ quoted "errorMessage" +++ ":" +++ quoted m
        | None => EmptyString
        end
    +++ "}".

Definition JSON_stringify (keys : list ApiKeyData) : string :=
  "[" +++ Js.join "," (map showKey keys) +++ "]".

(** Some values that are not arrays of credentials. *)
Inductive JsOther : Type :=
| JsNull
| JsNumber (n : Z)
| JsEmptyObject.

(** A reader that knows the texts of the scenarios and refuses the rest. *)
Definition JSON_parse (s : string) : option (Store.Parsed JsOther) :=
  if (s =? JSON_stringify twoKeys)%string then Some (Store.Credentials twoKeys)
  else if (s =? "[]")%string then Some (Store.Credentials [])
  else if (s =? "null")%string then Some (Store.NotCredentials JsNull)
  else if (s =? "5")%string then Some (Store.NotCredentials (JsNumber 5))
  else if (s =? "{}")%string then Some (Store.NotCredentials JsEmptyObject)
  else None.

Definition emptyStorage : Store.Storage := fun _ => None.

Definition legacyOnly : Store.Storage :=
  Store.setItem Store.OLD_STORAGE_KEY "legacy-secret" emptyStorage.

(** A storage whose only entry is the given text under the current key. *)
Definition recordOf (stored : string) : Store.Storage :=
  Store.setItem Store.LOCAL_STORAGE_KEY stored emptyStorage.

Definition load := Store.getStoredApiKeys JSON_parse JSON_stringify 7.

(** Claim C9.  The texts null, 5 and {} are well-formed JSON and no list
    of credentials: records as corrupt as one that does not parse.
    [getStoredApiKeys] hands each value on as if it were a list; only the
    text that does not parse gives the empty list. *)
Lemma load_returns_what_was_parsed :
  load (recordOf "null") = (Store.NotCredentials JsNull, recordOf "null") /\
  load (recordOf "5") = (Store.NotCredentials (JsNumber 5), recordOf "5") /\
  load (recordOf "{}") = (Store.NotCredentials JsEmptyObject, recordOf "{}") /\
  load (recordOf "{oops") = (Store.Credentials [], recordOf "{oops") /\
  fst (load (recordOf "null")) <> Store.Credentials [].
Proof.
  repeat split; try (vm_compute; reflexivity). vm_compute. discriminate.
Qed.

Lemma load_credentials_witness :
  fst (load (Store.saveStoredApiKeys JSON_stringify twoKeys emptyStorage))
  = Store.Credentials twoKeys /\
  load emptyStorage = (Store.Credentials [], emptyStorage) /\
  load (recordOf "{oops") = (Store.Credentials [], recordOf "{oops") /\
  (exists c, fst (load legacyOnly) = Store.Credentials [c] /\
             key c = "legacy-secret" /\
             status c = active /\ usageCount c = 0%N) /\
  Store.getItem (snd (load legacyOnly)) Store.OLD_STORAGE_KEY = None.
Proof.
  split; [|split; [|split]].
  - apply (proj1 (proj2 (load_credentials JSON_parse JSON_stringify 7
                           emptyStorage)) twoKeys).
    + vm_compute. discriminate.
    + reflexivity.
  - apply (proj1 (proj2 (proj2 (load_credentials JSON_parse JSON_stringify 7
                                  emptyStorage)))); reflexivity.
  - apply (proj1 (proj2 (proj2 (proj2
             (load_credentials JSON_parse JSON_stringify 7
                (recordOf "{oops")))))
             "{oops"); [reflexivity | discriminate | reflexivity].
  - pose proof (proj2 (proj2 (proj2 (proj2
                  (load_credentials JSON_parse JSON_stringify 7 legacyOnly))))
                  "legacy-secret" eq_refl eq_refl ltac:(discriminate)) as H.
    fold load in H. destruct (load legacyOnly) as [value ls'].
    destruct H as ((c & Hkeys & Hkey & Hstatus & Hcount & _) & Hold & _).
    simpl. split; [|assumption].
    exists c. repeat split; assumption.
Defined.


(** *** Claim C10 *)




(** *** Claims C1 and C2: three credentials, the second of them good *)

Definition threeKeys : list ApiKeyData :=
  [freshKey "K-quota" 0; freshKey "K-good" 0; freshKey "K-denied" 0].

(** The cursor at 0 picks the first of three, which fails; the cursor at 1
    picks the second of the two left, which fails; the cursor at 2 picks
    the only one left. *)
Lemma rotation_scenario :
  let '(r, st', attempts) := attempt threeKeys (plain "hi") (page threeKeys) in
  map (fun a => (at_index a, at_attemptedKeys a, map key (at_activeKeys a),
                 triedKey a)) attempts
  = [(0%N, [], ["K-quota"; "K-good"; "K-denied"], "K-quota");
     (1%N, ["K-quota"], ["K-good"; "K-denied"], "K-denied");
     (2%N, ["K-quota"; "K-denied"], ["K-good"], "K-good")] /\
  globalKeyIndex st' = 3%N /\
  map (fun k => (key k, status k, errorMessage k, usageCount k)) (apiKeys st')
  = [("K-quota", quota_exceeded, Some "QUOTA_EXCEEDED", 0%N);
     ("K-good", active, None, 1%N);
     ("K-denied", error, Some "INVALID_KEY", 0%N)].
Proof.
  vm_compute. repeat split.
Qed.

(** With every credential refused, the call ends with the error for no
    active key after one attempt per credential. *)
Definition refusedKeys : list ApiKeyData :=
  [freshKey "K-quota" 0; freshKey "K-denied" 0].

Lemma exhaustion_scenario :
  let '(r, _, attempts) :=
    attempt refusedKeys (plain "hi") (page refusedKeys) in
  r = Rejected noActiveKeys /\ map triedKey attempts = ["K-quota"; "K-denied"].
Proof.
  vm_compute. repeat split.
Qed.


(** ** Scenarios for the further properties *)

Definition revokeObjectURL (w : World) (url : string) : World := (w + 1)%N.


Lemma generateSpeech_outcomes_witness :
  generateSpeech generateContent (plain "hi") EmptyString (page twoKeys)
  = (Rejected (newError "No API Key provided for this request."),
     page twoKeys) /\
  "audio:" +++ promptText (plain "hi") <> EmptyString /\
  message quotaError <> EmptyString.
Proof.
  split; [|split].
  - apply (proj1 (generateSpeech_outcomes generateContent (plain "hi")
                    EmptyString (page twoKeys))).
    reflexivity.
  - apply (proj1 (proj2 (generateSpeech_outcomes generateContent (plain "hi")
                           "K-good" (page twoKeys)))
             ("audio:" +++ promptText (plain "hi"))
             (snd (generateSpeech generateContent (plain "hi") "K-good"
                     (page twoKeys)))).
    reflexivity.
  - discriminate.
Defined.


(** The three rows with the second one deselected. *)
Definition twoOfThree : AppState World := handleToggleSelect "id1" loaded.

Lemma toggle_select_all_witness :
  NoDup (map Item.id (batchItems twoOfThree)) /\
  batchItems twoOfThree <> [] /\
  isAllSelected twoOfThree = false /\
  isIndeterminate twoOfThree = true /\
  selectedIds (handleToggleSelectAll twoOfThree twoOfThree)
  = ["id0"; "id1"; "id2"].
Proof.
  assert (H1 : NoDup (map Item.id (batchItems twoOfThree))).
  { vm_compute. repeat constructor; simpl; intuition discriminate. }
  assert (H2 : batchItems twoOfThree <> []) by (vm_compute; discriminate).
  assert (H3 : isAllSelected twoOfThree = false) by reflexivity.
  split; [exact H1|]. split; [exact H2|]. split; [exact H3|].
  split; [reflexivity|].
  pose proof (toggle_select_all twoOfThree H1 H2 H3) as H.
  cbv zeta in H. destruct H as [E _]. rewrite E. reflexivity.
Defined.

(** The page after the bulk run of the three rows, and its batch panel. *)
Definition afterRun : AppState World := fst (batch loaded).

Definition panel : BatchPanel World :=
  {| pageOf := afterRun; clearConfirmation := false |}.

Lemma clear_needs_confirmation_witness :
  clearConfirmation panel = false /\
  handlesOf (batchItems afterRun) = ["blob:5"; "blob:10"] /\
  batchItems (pageOf (handleClearBatch revokeObjectURL panel panel))
  = batchItems afterRun /\
  batchItems
    (pageOf (handleClearBatch revokeObjectURL
               (handleClearBatch revokeObjectURL panel panel)
               (handleClearBatch revokeObjectURL panel panel))) = [].
Proof.
  split; [reflexivity|]. split; [vm_compute; reflexivity|].
  destruct (clear_needs_confirmation revokeObjectURL panel eq_refl)
    as (H1 & _ & H3 & _).
  split; [rewrite H1; reflexivity | exact H3].
Defined.

Lemma safeName_spec_witness :
  allChars isAlnum "Row12" = true /\
  safeName "Row12" = "Row12" /\
  String.length (safeName "a b/c.wav") = 9.
Proof.
  split; [reflexivity|]. split.
  - apply (proj1 (proj2 (proj2 (safeName_spec "Row12")))). reflexivity.
  - rewrite (proj1 (safeName_spec "a b/c.wav")). reflexivity.
Defined.

Definition saying : string := "He said " +++ quote +++ "hi" +++ quote +++ ", twice".

Lemma quoted_content_round_trip_witness :
  "7" <> EmptyString /\ noComma "7" = true /\ Js.trim "7" = "7" /\
  Js.startsWith Js.dquote "7" = false /\ Js.noLineTerminator saying = true /\
  parseRow ("7" +++ "," +++ csvQuoted saying) = Some ("7", saying).
Proof.
  repeat (split; [first [discriminate | reflexivity]|]).
  apply quoted_content_round_trip; first [discriminate | reflexivity].
Defined.

Lemma secrets_stay_distinct_witness :
  NoDup (map key (apiKeys loaded)) /\
  map key (apiKeys (fst (batch loaded))) = ["K-quota"; "K-good"].
Proof.
  assert (H : NoDup (map key (apiKeys loaded))).
  { vm_compute. repeat constructor; simpl; intuition discriminate. }
  split; [exact H|].
  unfold batch.
  rewrite (proj2 (proj2 (proj2 (proj2 (proj2
             (@secrets_stay_distinct World Blob generateContent createWavBlob
                createObjectURL BANNED_WORDS loaded H))))) loaded).
  reflexivity.
Defined.

Definition withInput (t : string) (s : AppState World) : AppState World :=
  {| apiKeys := apiKeys s; globalKeyIndex := globalKeyIndex s;
     newKeyInput := t; showKeyModal := showKeyModal s;
     selectedVoice := selectedVoice s; speed := speed s; pitch := pitch s;
     isSSML := isSSML s; text := text s; singleLoading := singleLoading s;
     singleError := singleError s; singleAudioUrl := singleAudioUrl s;
     batchItems := batchItems s; selectedIds := selectedIds s;
     isBatchProcessing := isBatchProcessing s; world := world s;
     sent := sent s |}.

(** The scenario of the specification: the secret ABC123 registered twice
    is stored once. *)
Lemma add_and_remove_key_witness :
  let typed := withInput " ABC123 " (page twoKeys) in
  let once := handleAddKey 5 typed typed in
  let again := handleAddKey 6 (withInput "ABC123" once) (withInput "ABC123" once) in
  map key (apiKeys once) = ["K-quota"; "K-good"; "ABC123"] /\
  again = withInput "ABC123" once /\
  apiKeys (handleRemoveKey "ABC123" once) = twoKeys.
Proof.
  cbv zeta. split; [reflexivity|]. split.
  - apply (proj1 (add_and_remove_key 6
                    (withInput "ABC123"
                       (handleAddKey 5 (withInput " ABC123 " (page twoKeys))
                          (withInput " ABC123 " (page twoKeys)))))).
    right. vm_compute. tauto.
  - apply (proj1 (proj2 (add_and_remove_key 5
                           (withInput " ABC123 " (page twoKeys))))).
    + vm_compute. discriminate.
    + vm_compute. intuition discriminate.
Defined.

Definition legacyKeys : list ApiKeyData := [freshKey "legacy-secret" 7].

(** A reader that also knows the text of the migrated credential. *)
Definition JSON_parse_legacy (s : string)
  : option (Store.Parsed JsOther) :=
  if (s =? JSON_stringify legacyKeys)%string
  then Some (Store.Credentials legacyKeys)
  else JSON_parse s.

Lemma saved_credentials_load_back_witness :
  JSON_stringify twoKeys <> EmptyString /\
  Store.getStoredApiKeys JSON_parse JSON_stringify 9
    (persistEffect JSON_stringify twoKeys legacyOnly)
  = (Store.Credentials twoKeys,
     persistEffect JSON_stringify twoKeys legacyOnly) /\
  persistEffect JSON_stringify [] legacyOnly = legacyOnly.
Proof.
  assert (H : JSON_stringify twoKeys <> EmptyString)
    by (vm_compute; discriminate).
  split; [exact H|]. split.
  - apply (proj1 (saved_credentials_load_back JSON_parse JSON_stringify 9
                    legacyOnly H eq_refl)).
    left. discriminate.
  - apply (proj2 (@saved_credentials_load_back JsOther JSON_parse JSON_stringify 9
                    []
                    legacyOnly ltac:(vm_compute; discriminate) eq_refl));
      reflexivity.
Defined.

Lemma migration_happens_once_witness :
  Store.getStoredApiKeys JSON_parse_legacy JSON_stringify 99
    (snd (Store.getStoredApiKeys JSON_parse_legacy JSON_stringify 7 legacyOnly))
  = Store.getStoredApiKeys JSON_parse_legacy JSON_stringify 7 legacyOnly.
Proof.
  pose proof (proj2 (migration_happens_once JSON_parse_legacy JSON_stringify
                       7 99 legacyOnly)
                "legacy-secret" eq_refl eq_refl ltac:(discriminate)
                ltac:(vm_compute; discriminate) eq_refl) as H.
  destruct (Store.getStoredApiKeys JSON_parse_legacy JSON_stringify 7
              legacyOnly) as [keys ls'].
  destruct H as [_ H]. exact H.
Defined.


Lemma reset_restores_credential_witness :
  Forall (fun c => key c = "K-quota" ->
                   status c = active /\ errorMessage c = None)
         (apiKeys (page twoKeys)) /\
  handleResetKeyStatus "K-quota"
    (markKeyError "K-quota" "QUOTA_EXCEEDED" true (page twoKeys))
  = page twoKeys.
Proof.
  assert (H : Forall (fun c => key c = "K-quota" ->
                               status c = active /\ errorMessage c = None)
                     (apiKeys (page twoKeys))).
  { repeat constructor. }
  split; [exact H|].
  apply (proj2 (proj2 (reset_restores_credential "K-quota" (page twoKeys)))
           H "QUOTA_EXCEEDED" true).
Defined.

End Demo.
